(** * Sequential semantics of the containers of [src/atomics.hpp]

    The bounded stack [stack_t], the ring buffer [buffer_t] and the hash
    dictionary [dictionary_t] of namespace [tycho::atomic], embedded as pure
    state-passing functions, one per member function, and the properties of
    their sequential (single-threaded) behaviour.

    Every atomic member is modelled by the value it holds: for one thread
    [fetch_add] returns the old value and stores the wrapped sum, [load],
    [store] and [exchange] are plain reads and writes, and a
    [compare_exchange_weak] loop ends with the exchange done. *)

From Stdlib Require Import ZArith Lia.
From stdpp Require Import base list strings.

Open Scope Z_scope.

(** ** Machine integers and arrays *)

Module Machine.

(** [int]: 32 bits, two's complement.  Atomic arithmetic wraps. *)
Definition int_wrap (z : Z) : Z := (z + 2 ^ 31) mod 2 ^ 32 - 2 ^ 31.

Definition int_range (z : Z) : Prop := - 2 ^ 31 <= z < 2 ^ 31.

(** [unsigned]: 32 bits. *)
Definition unsigned_wrap (z : Z) : Z := z mod 2 ^ 32.

Definition unsigned_range (z : Z) : Prop := 0 <= z < 2 ^ 32.

(** [std::size_t]: 64 bits (LP64).  Converting an [int] or [unsigned] to
    [std::size_t], as the usual arithmetic conversions do when one is
    compared with the template parameter [S], reduces it modulo [2^64]. *)
Definition size_wrap (z : Z) : Z := z mod 2 ^ 64.

Definition size_range (z : Z) : Prop := 0 <= z < 2 ^ 64.

(** The result of a member function that indexes the array [data_]: an
    index outside the array is undefined behaviour in the source and is
    reported as [OutOfBounds] here. *)
Inductive access (A : Type) : Type :=
| Ok (a : A)
| OutOfBounds.
Arguments Ok {A} a.
Arguments OutOfBounds {A}.

(** [a[i]] read. *)
Definition array_get {T : Type} (a : list T) (i : Z) : option T :=
  if decide (0 <= i) then a !! Z.to_nat i else None.

(** [a[i] = x]. *)
Definition array_set {T : Type} (a : list T) (i : Z) (x : T) : option (list T) :=
  if decide (0 <= i < Z.of_nat (length a)) then Some (<[Z.to_nat i := x]> a) else None.

End Machine.

Import Machine.

(** ** [stack_t<T, S>] *)

Module Stack.

Section stack.
Context {T : Type}.
(** The template parameter [S]. *)
Variable S : Z.

(** [std::atomic<int> count_{0}; T data_[S];] *)
Record stack_t : Type := { count_ : Z; data_ : list T }.

(** What the declaration guarantees of every object: [count_] is an
    [int] and [data_] has [S] elements. *)
Definition stack_ok (st : stack_t) : Prop :=
  int_range (count_ st) /\ Z.of_nat (length (data_ st)) = S.

Definition size (st : stack_t) : Z :=
  let count := count_ st in
  if count <? 0 then 0
  else if size_wrap count >? S then S
  else size_wrap count.

Definition empty (st : stack_t) : bool := count_ st <? 1.

Definition full (st : stack_t) : bool := size_wrap (count_ st) >=? S.

Definition push (item : T) (st : stack_t) : access (bool * stack_t) :=
  let count := count_ st in
  let st1 := {| count_ := int_wrap (count + 1); data_ := data_ st |} in
  if size_wrap count >=? S then
    Ok (false, {| count_ := int_wrap (count_ st1 - 1); data_ := data_ st1 |})
  else
    match array_set (data_ st1) count item with
    | Some data => Ok (true, {| count_ := count_ st1; data_ := data |})
    | None => OutOfBounds
    end.

(** [pull(T& item)]: the second component is [item] after the call. *)
Definition pull (item : T) (st : stack_t) : access (bool * T * stack_t) :=
  let count := count_ st in
  let st1 := {| count_ := int_wrap (count - 1); data_ := data_ st |} in
  if count <? 0 then
    Ok (false, item, {| count_ := int_wrap (count_ st1 + 1); data_ := data_ st1 |})
  else
    match array_get (data_ st1) count with
    | Some x => Ok (true, x, st1)
    | None => OutOfBounds
    end.

Definition pop (st : stack_t) : access (option T * stack_t) :=
  let count := count_ st in
  let st1 := {| count_ := int_wrap (count - 1); data_ := data_ st |} in
  if count <? 0 then
    Ok (None, {| count_ := int_wrap (count_ st1 + 1); data_ := data_ st1 |})
  else
    match array_get (data_ st1) count with
    | Some x => Ok (Some x, st1)
    | None => OutOfBounds
    end.

End stack.

Arguments stack_t T : clear implicits.

(** A [stack_t<int, 3>] of static storage as its constructor leaves it:
    the counter at [0], the three slots zero-initialised. *)
Definition fresh3 : stack_t Z := {| count_ := 0; data_ := [0; 0; 0] |}.

(** [explicit operator bool] and [operator!]. *)
Definition operator_bool {T : Type} (st : stack_t T) : bool := count_ st >? 0.

Definition operator_not {T : Type} (st : stack_t T) : bool := count_ st <? 1.

(** A sequence of [push] calls, with what each call returned. *)
Fixpoint push_all {T : Type} (S : Z) (items : list T) (st : stack_t T)
  : access (list bool * stack_t T) :=
  match items with
  | [] => Ok ([], st)
  | item :: rest =>
      match push S item st with
      | Ok (r, st1) =>
          match push_all S rest st1 with
          | Ok (rs, st2) => Ok (r :: rs, st2)
          | OutOfBounds => OutOfBounds
          end
      | OutOfBounds => OutOfBounds
      end
  end.

End Stack.

(** ** [buffer_t<T, S>] *)

Module Buffer.

Section buffer.
Context {T : Type}.
(** The template parameter [S]. *)
Variable S : Z.
(** [pop()] ends in [return head;] with [head] an [unsigned] and the return
    type [std::optional<T>]: the conversion from [unsigned] to [T] that this
    statement needs to compile. *)
Variable from_unsigned : Z -> T.

(** [std::atomic<unsigned> head_{0U}, tail_{0U}; T data_[S];] *)
Record buffer_t : Type := { head_ : Z; tail_ : Z; data_ : list T }.

Definition buffer_ok (b : buffer_t) : Prop :=
  unsigned_range (head_ b) /\ unsigned_range (tail_ b) /\
  Z.of_nat (length (data_ b)) = S.

(** [if(++next >= S) next -= S;] on an [unsigned] index. *)
Definition advance (index : Z) : Z :=
  let next := unsigned_wrap (index + 1) in
  if size_wrap next >=? S then unsigned_wrap (size_wrap (size_wrap next - S))
  else next.

Definition empty (b : buffer_t) : bool := head_ b =? tail_ b.

Definition full (b : buffer_t) : bool :=
  let tail := tail_ b in
  let next := advance tail in
  next =? head_ b.

Definition push (item : T) (b : buffer_t) : access (bool * buffer_t) :=
  let tail := tail_ b in
  let next := advance tail in
  let head := head_ b in
  if next =? head then Ok (false, b)
  else
    match array_set (data_ b) tail item with
    | Some data => Ok (true, {| head_ := head_ b; tail_ := next; data_ := data |})
    | None => OutOfBounds
    end.

(** [pull(T& item)]: the second component is [item] after the call.  The
    advanced [head] is a local; the store at the end is [tail_.store(tail)]. *)
Definition pull (item : T) (b : buffer_t) : access (bool * T * buffer_t) :=
  let head := head_ b in
  let tail := tail_ b in
  if head =? tail then Ok (false, item, b)
  else
    match array_get (data_ b) head with
    | Some x =>
        let item := x in
        let head := advance head in
        Ok (true, item, {| head_ := head_ b; tail_ := tail; data_ := data_ b |})
    | None => OutOfBounds
    end.

(** [pop()]: the slot is read into a local [item], the store at the end is
    [tail_.store(tail)], and the value returned is [head]. *)
Definition pop (b : buffer_t) : access (option T * buffer_t) :=
  let head := head_ b in
  let tail := tail_ b in
  if head =? tail then Ok (None, b)
  else
    match array_get (data_ b) head with
    | Some x =>
        let item := x in
        let head := advance head in
        Ok (Some (from_unsigned head),
            {| head_ := head_ b; tail_ := tail; data_ := data_ b |})
    | None => OutOfBounds
    end.

End buffer.

Arguments buffer_t T : clear implicits.

(** A [buffer_t<unsigned, 4>] after [push(10)] on the constructed object
    (static storage, slots zero-initialised). *)
Definition one_pushed : buffer_t Z :=
  {| head_ := 0; tail_ := 1; data_ := [10; 0; 0; 0] |}.

(** [explicit operator bool] and [operator!]. *)
Definition operator_bool {T : Type} (b : buffer_t T) : bool :=
  negb (head_ b =? tail_ b).

Definition operator_not {T : Type} (b : buffer_t T) : bool := head_ b =? tail_ b.

(** A [buffer_t<unsigned, 4>] of static storage as its constructor leaves
    it. *)
Definition constructed4 : buffer_t Z :=
  {| head_ := 0; tail_ := 0; data_ := [0; 0; 0; 0] |}.

(** The object is as declared and both indices name a slot. *)
Definition in_bounds {T : Type} (S : Z) (b : buffer_t T) : Prop :=
  buffer_ok S b /\ head_ b < S /\ tail_ b < S.

(** A sequence of [push] calls, with what each call returned. *)
Fixpoint push_all {T : Type} (S : Z) (items : list T) (b : buffer_t T)
  : access (list bool * buffer_t T) :=
  match items with
  | [] => Ok ([], b)
  | item :: rest =>
      match push S item b with
      | Ok (r, b1) =>
          match push_all S rest b1 with
          | Ok (rs, b2) => Ok (r :: rs, b2)
          | OutOfBounds => OutOfBounds
          end
      | OutOfBounds => OutOfBounds
      end
  end.

End Buffer.

(** ** [dictionary_t<K, V, S>] *)

Module Dictionary.

Section dictionary.
(** [K] with its [operator==], [V], [std::hash<K>] and the bucket count [S]. *)
Context {K V : Type} `{EqDecision K}.
Variable hash : K -> Z.
Variable S : Z.
(** The state in which [K]'s move constructor leaves its source: the
    source itself for a trivially copyable key such as [int], the empty
    string for [std::string]. *)
Variable moved_from : K -> K.

(** [struct node]: [key], [value] and the [next] link; a chain is the list
    of the nodes reached from a bucket head through [next], [nullptr]
    being the empty list. *)
Record node : Type := { key : K; value : V }.

(** [std::atomic<node*> table_[S]; std::atomic<std::size_t> count_{0};] *)
Record dictionary_t : Type := { table_ : list (list node); count_ : Z }.

Definition key_index (k : K) : Z := hash k mod S.

(** [table_[index].load()] and [table_[index].store(head)]. *)
Definition bucket (d : dictionary_t) (index : Z) : list node :=
  default [] (table_ d !! Z.to_nat index).

Definition store_bucket (index : Z) (head : list node) (d : dictionary_t)
  : list (list node) :=
  <[Z.to_nat index := head]> (table_ d).

(** The constructor: every bucket [nullptr], [count_] zero. *)
Definition dictionary_new : dictionary_t :=
  {| table_ := replicate (Z.to_nat S) []; count_ := 0 |}.

(** The loop of [find] and [at]: the value of the first node whose key
    equals [k]. *)
Fixpoint chain_find (k : K) (current : list node) : option V :=
  match current with
  | [] => None
  | n :: next => if decide (key n = k) then Some (value n) else chain_find k next
  end.

(** The loop of [contains] and of the scan of [try_emplace]. *)
Fixpoint chain_contains (k : K) (current : list node) : bool :=
  match current with
  | [] => false
  | n :: next => if decide (key n = k) then true else chain_contains k next
  end.

(** The loop of [insert_or_assign]: [current->value = v] on the first node
    whose key equals [k]; [None] when the loop runs off the chain. *)
Fixpoint chain_assign (k : K) (v : V) (current : list node) : option (list node) :=
  match current with
  | [] => None
  | n :: next =>
      if decide (key n = k) then Some ({| key := key n; value := v |} :: next)
      else cons n <$> chain_assign k v next
  end.

(** The loop of [remove]: the first node whose key equals [k] is unlinked
    ([prev->next] or the bucket head is set to its [next]); [None] when the
    loop runs off the chain. *)
Fixpoint chain_remove (k : K) (current : list node) : option (list node) :=
  match current with
  | [] => None
  | n :: next =>
      if decide (key n = k) then Some next
      else cons n <$> chain_remove k next
  end.

Definition clear (d : dictionary_t) : dictionary_t :=
  {| table_ := (fun _ => []) <$> table_ d; count_ := 0 |}.

Definition insert (k : K) (v : V) (d : dictionary_t) : bool * dictionary_t :=
  let index := key_index k in
  let made := {| key := k; value := v |} in
  let expected := bucket d index in
  (true, {| table_ := store_bucket index (made :: expected) d;
            count_ := size_wrap (count_ d + 1) |}).

Definition insert_or_assign (k : K) (v : V) (d : dictionary_t) : bool * dictionary_t :=
  let index := key_index k in
  match chain_assign k v (bucket d index) with
  | Some chain => (true, {| table_ := store_bucket index chain d; count_ := count_ d |})
  | None => (true, snd (insert k v d))
  end.

(** [emplace(K&& key, V&& value)]: the index is taken before the arguments
    are moved into the node. *)
Definition emplace (k : K) (v : V) (d : dictionary_t) : bool * dictionary_t :=
  let index := key_index k in
  let made := {| key := k; value := v |} in
  let expected := bucket d index in
  (true, {| table_ := store_bucket index (made :: expected) d;
            count_ := size_wrap (count_ d + 1) |}).

(** [try_emplace(K&& key, V&& value)]: the index is taken first, then
    [new node(std::move(key), std::move(value))] moves the arguments into
    [made], and the scan that follows compares [current->key == key] with
    the argument as the move left it. *)
Definition try_emplace (k : K) (v : V) (d : dictionary_t) : bool * dictionary_t :=
  let index := key_index k in
  let made := {| key := k; value := v |} in
  let k := moved_from k in
  if chain_contains k (bucket d index) then (false, d)
  else (true, snd (emplace (key made) (value made) d)).

Definition find (k : K) (d : dictionary_t) : option V :=
  chain_find k (bucket d (key_index k)).

Definition contains (k : K) (d : dictionary_t) : bool :=
  chain_contains k (bucket d (key_index k)).

(** [at] throws [std::out_of_range] when the key is absent. *)
Inductive exception : Type := out_of_range.

Definition at_ (k : K) (d : dictionary_t) : V + exception :=
  match chain_find k (bucket d (key_index k)) with
  | Some v => inl v
  | None => inr out_of_range
  end.

Definition remove (k : K) (d : dictionary_t) : bool * dictionary_t :=
  let index := key_index k in
  match chain_remove k (bucket d index) with
  | Some chain => (true, {| table_ := store_bucket index chain d;
                            count_ := size_wrap (count_ d - 1) |})
  | None => (false, d)
  end.

Definition empty (d : dictionary_t) : bool := count_ d =? 0.

Definition size (d : dictionary_t) : Z := count_ d.

Definition keys (d : dictionary_t) : list K := key <$> concat (table_ d).

(** *** Vocabulary of the properties *)

(** The nodes reachable from all bucket heads. *)
Definition node_count (d : dictionary_t) : Z :=
  Z.of_nat (sum_list_with length (table_ d)).

(** The nodes of a chain, and of the whole table, whose key equals [k]. *)
Definition chain_count (k : K) (chain : list node) : nat :=
  length (filter (fun n => key n = k) chain).

Definition occurrences (k : K) (d : dictionary_t) : nat :=
  sum_list_with (chain_count k) (table_ d).

(** [count_] is the number of reachable nodes, as a [std::size_t]. *)
Definition count_ok (d : dictionary_t) : Prop :=
  count_ d = size_wrap (node_count d).

(** The table has its [S] buckets and every node sits in the bucket of its
    key. *)
Definition wf (d : dictionary_t) : Prop :=
  Z.of_nat (length (table_ d)) = S /\
  forall (i : nat) (chain : list node) (n : node),
    table_ d !! i = Some chain -> n ∈ chain -> key_index (key n) = Z.of_nat i.

(** The value of the last pair of [kvs] whose key is [k]. *)
Fixpoint last_assigned (k : K) (kvs : list (K * V)) : option V :=
  match kvs with
  | [] => None
  | (k', v') :: rest =>
      match last_assigned k rest with
      | Some v => Some v
      | None => if decide (k' = k) then Some v' else None
      end
  end.

(** A sequence of [insert_or_assign] calls. *)
Definition assign_all (kvs : list (K * V)) (d : dictionary_t) : dictionary_t :=
  fold_left (fun d kv => snd (insert_or_assign kv.1 kv.2 d)) kvs d.

(** A sequence of [insert] calls, with what each call returned and what
    [size()] was after it. *)
Fixpoint insert_all (kvs : list (K * V)) (d : dictionary_t)
  : list (bool * Z) * dictionary_t :=
  match kvs with
  | [] => ([], d)
  | (k, v) :: rest =>
      let '(r, d1) := insert k v d in
      let '(trace, d2) := insert_all rest d1 in
      ((r, size d1) :: trace, d2)
  end.

(** The mutating operations and a sequence of them. *)
Inductive operation : Type :=
| Insert (k : K) (v : V)
| InsertOrAssign (k : K) (v : V)
| Emplace (k : K) (v : V)
| TryEmplace (k : K) (v : V)
| Remove (k : K)
| Clear.

Definition step (d : dictionary_t) (op : operation) : dictionary_t :=
  match op with
  | Insert k v => snd (insert k v d)
  | InsertOrAssign k v => snd (insert_or_assign k v d)
  | Emplace k v => snd (emplace k v d)
  | TryEmplace k v => snd (try_emplace k v d)
  | Remove k => snd (remove k d)
  | Clear => clear d
  end.

Definition run (ops : list operation) (d : dictionary_t) : dictionary_t :=
  fold_left step ops d.

End dictionary.

Arguments node : clear implicits.
Arguments dictionary_t : clear implicits.
Arguments operation : clear implicits.

(** [dictionary_t<int, int>]: [std::hash<int>] converts the key to
    [std::size_t], and moving an [int] copies it. *)
Definition int_hash (k : Z) : Z := size_wrap k.

Definition int_moved_from (k : Z) : Z := k.

(** [dictionary_t<std::string, int>]: a moved-from [std::string] is empty.
    The hash stands for [std::hash<std::string>]; nothing below depends on
    its values. *)
Definition string_hash (s : string) : Z := Z.of_nat (String.length s).

Definition string_moved_from (s : string) : string := EmptyString.

(** [insert(1, 10); insert(1, 20)] on a constructed [dictionary_t<int, int>]. *)
Definition twice_inserted : dictionary_t Z Z :=
  run int_hash 16 int_moved_from [Insert 1 10; Insert 1 20] (dictionary_new 16).

(** [insert("a", 1)] on a constructed [dictionary_t<std::string, int>]. *)
Definition holding_a : dictionary_t string Z :=
  snd (insert string_hash 16 "a"%string 1 (dictionary_new 16)).

(** [explicit operator bool] and [operator!]. *)
Definition operator_bool {K V : Type} (d : dictionary_t K V) : bool := count_ d >? 0.

Definition operator_not {K V : Type} (d : dictionary_t K V) : bool := count_ d =? 0.

(** The (key, value) pairs in the order in which [keys] and [each] walk
    the table: bucket by bucket, each chain from its head. *)
Definition pairs {K V : Type} (d : dictionary_t K V) : list (K * V) :=
  (fun n => (key n, value n)) <$> concat (table_ d).

(** [each(func)]: [func(current->key, current->value)] on every node, bucket
    by bucket and each chain from its head.  The callback is a function
    object with a state of its own, [A]; it gets the value by reference and
    may assign it, so it returns its next state and the value it leaves in
    the node.  The key is read only. *)
Fixpoint each_chain {K V A : Type} (func : K -> V -> A -> A * V)
    (current : list (node K V)) (a : A) : A * list (node K V) :=
  match current with
  | [] => (a, [])
  | n :: next =>
      let '(a1, v1) := func (key n) (value n) a in
      let '(a2, next') := each_chain func next a1 in
      (a2, {| key := key n; value := v1 |} :: next')
  end.

Fixpoint each_table {K V A : Type} (func : K -> V -> A -> A * V)
    (buckets : list (list (node K V))) (a : A) : A * list (list (node K V)) :=
  match buckets with
  | [] => (a, [])
  | bucket :: rest =>
      let '(a1, chain) := each_chain func bucket a in
      let '(a2, rest') := each_table func rest a1 in
      (a2, chain :: rest')
  end.

Definition each {K V A : Type} (func : K -> V -> A -> A * V)
    (d : dictionary_t K V) (a : A) : A * dictionary_t K V :=
  let '(a', table) := each_table func (table_ d) a in
  (a', {| table_ := table; count_ := count_ d |}).

End Dictionary.

(** ** [sequence_t<T>] *)

Module Sequence.

Section sequence.
(** The width of the unsigned type [T] ([static_assert(std::is_unsigned_v<T>)]);
    32 for the default [unsigned]. *)
Variable bits : Z.

Definition wrap (z : Z) : Z := z mod 2 ^ bits.

Definition in_range (z : Z) : Prop := 0 <= z < 2 ^ bits.

(** [mutable std::atomic<T> seq_{0};] *)
Record sequence_t : Type := { seq_ : Z }.

Definition sequence_new : sequence_t := {| seq_ := 0 |}.

Definition sequence_of (initial : Z) : sequence_t := {| seq_ := initial |}.

(** The copy constructor and copy assignment: a plain load of the source. *)
Definition copy (from : sequence_t) : sequence_t := {| seq_ := seq_ from |}.

(** [operator*] and [operator T]: [seq_.fetch_add(1)]. *)
Definition deref (s : sequence_t) : Z * sequence_t :=
  (seq_ s, {| seq_ := wrap (seq_ s + 1) |}).

(** [set(v)] and [operator=(const T v)]. *)
Definition set (v : Z) (s : sequence_t) : sequence_t := {| seq_ := v |}.

(** [n] reads in a row. *)
Fixpoint reads (n : nat) (s : sequence_t) : list Z * sequence_t :=
  match n with
  | O => ([], s)
  | Datatypes.S n =>
      let '(v, s1) := deref s in
      let '(vs, s2) := reads n s1 in
      (v :: vs, s2)
  end.

End sequence.

End Sequence.

(** ** [once_t] *)

Module Once.

(** [mutable std::atomic<bool> flag_{true};] *)
Record once_t : Type := { flag_ : bool }.

Definition once_new : once_t := {| flag_ := true |}.

(** [explicit operator bool]: [flag_.exchange(false)]. *)
Definition operator_bool (g : once_t) : bool * once_t :=
  (flag_ g, {| flag_ := false |}).

(** [operator!]: [!flag_.exchange(false)]. *)
Definition operator_not (g : once_t) : bool * once_t :=
  (negb (flag_ g), {| flag_ := false |}).

Definition reset (g : once_t) : once_t := {| flag_ := true |}.

(** The two ways of testing the gate, and a sequence of tests. *)
Inductive test : Type := AsBool | Not.

Definition check (t : test) (g : once_t) : bool * once_t :=
  match t with
  | AsBool => operator_bool g
  | Not => operator_not g
  end.

Fixpoint checks (ts : list test) (g : once_t) : list bool * once_t :=
  match ts with
  | [] => ([], g)
  | t :: rest =>
      let '(r, g1) := check t g in
      let '(rs, g2) := checks rest g1 in
      (r :: rs, g2)
  end.

End Once.

(** ** [atomic_ref<T>] *)

Module AtomicRef.

Section atomic_ref.
(** The integral type [T]: its width (8, 16, 32 or 64) and signedness. *)
Variable bits : Z.
Variable signed : bool.

Definition wrap (z : Z) : Z :=
  if signed then (z + 2 ^ (bits - 1)) mod 2 ^ bits - 2 ^ (bits - 1)
  else z mod 2 ^ bits.

Definition in_range (z : Z) : Prop :=
  if signed then - 2 ^ (bits - 1) <= z < 2 ^ (bits - 1)
  else 0 <= z < 2 ^ bits.

(** The referenced location [T& ref] is modelled by the value it holds;
    every member returns its result and the value [ref] holds afterwards. *)
Definition load (ref : Z) : Z := ref.

Definition store (value : Z) (ref : Z) : Z := value.

Definition exchange (value : Z) (ref : Z) : Z * Z := (ref, value).

(** [compare_exchange_strong(expected, value)]: the result, [expected]
    after the call, and [ref] after the call. *)
Definition compare_exchange_strong (expected value : Z) (ref : Z) : bool * Z * Z :=
  if ref =? expected then (true, expected, value)
  else (false, ref, ref).

Definition fetch_add (arg : Z) (ref : Z) : Z * Z := (ref, wrap (ref + arg)).

Definition fetch_sub (arg : Z) (ref : Z) : Z * Z := (ref, wrap (ref - arg)).

(** [operator++(int)] and [operator--(int)]. *)
Definition post_increment (ref : Z) : Z * Z := fetch_add 1 ref.

Definition post_decrement (ref : Z) : Z * Z := fetch_sub 1 ref.

(** [operator+=] and [operator-=]. *)
Definition add_assign (value : Z) (ref : Z) : Z := snd (fetch_add value ref).

Definition sub_assign (value : Z) (ref : Z) : Z := snd (fetch_sub value ref).

End atomic_ref.

End AtomicRef.

(** * Properties *)

Module MachineFacts.

Lemma int_wrap_id z : int_range z -> int_wrap z = z.
Proof.
  unfold int_range, int_wrap. intros H.
  rewrite Z.mod_small by lia. lia.
Qed.

Lemma size_wrap_id z : size_range z -> size_wrap z = z.
Proof. unfold size_range, size_wrap. intros H. apply Z.mod_small. lia. Qed.

Lemma size_wrap_range z : size_range (size_wrap z).
Proof. unfold size_range, size_wrap. apply Z.mod_pos_bound. lia. Qed.

Lemma size_wrap_succ z : size_wrap (size_wrap z + 1) = size_wrap (z + 1).
Proof. unfold size_wrap. apply Z.add_mod_idemp_l. lia. Qed.

Lemma size_wrap_pred z : size_wrap (size_wrap z - 1) = size_wrap (z - 1).
Proof. unfold size_wrap. apply Zminus_mod_idemp_l. Qed.

Lemma unsigned_wrap_id z : unsigned_range z -> unsigned_wrap z = z.
Proof. unfold unsigned_range, unsigned_wrap. intros H. apply Z.mod_small. lia. Qed.

Lemma array_get_Some {T : Type} (a : list T) i :
  0 <= i < Z.of_nat (length a) -> exists x, array_get a i = Some x.
Proof.
  intros H. unfold array_get. rewrite decide_True by lia.
  destruct (lookup_lt_is_Some_2 a (Z.to_nat i)) as [x Hx]; [lia|]. eauto.
Qed.

Lemma array_get_None {T : Type} (a : list T) i :
  Z.of_nat (length a) <= i -> array_get a i = None.
Proof.
  intros H. unfold array_get. rewrite decide_True by lia.
  apply lookup_ge_None. lia.
Qed.

Lemma array_set_get {T : Type} (a : list T) (i : Z) (x : T) (a' : list T) :
  array_set a i x = Some a' ->
  array_get a' i = Some x /\
  length a' = length a /\
  (forall j, j <> i -> array_get a' j = array_get a j).
Proof.
  unfold array_set, array_get. intros H.
  destruct (decide (0 <= i < Z.of_nat (length a))) as [Hi|]; [|discriminate].
  injection H as <-. split; [|split].
  - rewrite decide_True by lia. apply list_lookup_insert_eq. lia.
  - apply length_insert.
  - intros j Hj. destruct (decide (0 <= j)); [|reflexivity].
    apply list_lookup_insert_ne. lia.
Qed.

End MachineFacts.

(** ** The bounded stack *)

Module StackProps.
Import MachineFacts Stack.

Section props.
Context {T : Type}.
Variable S : Z.
(** [static_assert(S > 2)]. *)
Hypothesis S_static_assert : 2 < S.

(** C9: [size()] lies between [0] and [S]; it is [0] while the counter
    is negative and [S] while the counter exceeds [S]. *)
Theorem size_within_capacity (st : stack_t T) :
  int_range (count_ st) ->
  0 <= size S st <= S /\
  (count_ st < 0 -> size S st = 0) /\
  (S < count_ st -> size S st = S) /\
  (0 <= count_ st <= S -> size S st = count_ st).
Proof using S_static_assert.
  intros Hr. unfold size. cbv zeta.
  destruct (Z.ltb_spec (count_ st) 0) as [Hneg|Hpos].
  - repeat split; lia.
  - rewrite (size_wrap_id (count_ st)) by (unfold int_range, size_range in *; lia).
    destruct (Z.gtb_spec (count_ st) S); repeat split; lia.
Qed.

(** C3: on a stack whose counter is [0], [pop()] and [pull(item)] test
    the value [fetch_sub] returned, which is [0] and not negative: they
    hand out [data_[0]] and leave the counter at [-1]. *)
Theorem pop_on_empty_reads_slot_zero (st : stack_t T) (item : T) :
  stack_ok S st ->
  count_ st = 0 ->
  exists x,
    array_get (data_ st) 0 = Some x /\
    pop st = Ok (Some x, {| count_ := -1; data_ := data_ st |}) /\
    pull item st = Ok (true, x, {| count_ := -1; data_ := data_ st |}).
Proof using S_static_assert.
  intros [Hr Hlen] H0.
  destruct (array_get_Some (data_ st) 0) as [x Hx]; [lia|].
  exists x. unfold pop, pull. cbv zeta. rewrite H0. simpl.
  rewrite Hx. auto.
Qed.

(** The capacity is counted by an [int]. *)
Hypothesis S_int : S < 2 ^ 31.

(** C4: below capacity [push(x)] succeeds and stores [x] in slot
    [count_]; the [pop()] that follows reads slot [count_ + 1], the one
    above [x]: its old content when it exists, and outside the array
    when [x] went into the last slot. *)
Theorem pop_after_push_reads_slot_above (x : T) (st : stack_t T) :
  stack_ok S st ->
  0 <= count_ st < S ->
  exists data,
    let st1 := {| count_ := count_ st + 1; data_ := data |} in
    push S x st = Ok (true, st1) /\
    array_get data (count_ st) = Some x /\
    (count_ st + 1 < S ->
     exists y, array_get (data_ st) (count_ st + 1) = Some y /\
               pop st1 = Ok (Some y, {| count_ := count_ st; data_ := data |})) /\
    (count_ st + 1 = S -> pop st1 = OutOfBounds).
Proof using S_static_assert S_int.
  intros [Hr Hlen] Hc.
  assert (Hset : array_set (data_ st) (count_ st) x
                 = Some (<[Z.to_nat (count_ st) := x]> (data_ st))).
  { unfold array_set. apply decide_True. lia. }
  destruct (array_set_get _ _ _ _ Hset) as (Hget & Hlen' & Hother).
  eexists. cbv zeta. split; [|split; [exact Hget|split]].
  - unfold push. cbv zeta. cbn [count_ data_].
    rewrite size_wrap_id by (unfold size_range; lia).
    destruct (Z.geb_spec (count_ st) S) as [?|_]; [lia|].
    rewrite Hset, int_wrap_id by (unfold int_range; lia). reflexivity.
  - intros Hlt.
    destruct (array_get_Some (data_ st) (count_ st + 1)) as [y Hy]; [lia|].
    exists y. split; [exact Hy|].
    unfold pop. cbv zeta. cbn [count_ data_].
    destruct (Z.ltb_spec (count_ st + 1) 0) as [?|_]; [lia|].
    rewrite Hother, Hy by lia.
    replace (count_ st + 1 - 1) with (count_ st) by lia.
    rewrite int_wrap_id by (unfold int_range in *; lia). reflexivity.
  - intros Heq.
    unfold pop. cbv zeta. cbn [count_ data_].
    destruct (Z.ltb_spec (count_ st + 1) 0) as [?|_]; [lia|].
    rewrite array_get_None; [reflexivity|]. rewrite Hlen'. lia.
Qed.

End props.

Lemma fresh3_ok : stack_ok 3 fresh3.
Proof. split; [unfold int_range; simpl; lia | reflexivity]. Qed.

Lemma size_within_capacity_witness :
  let st := {| count_ := 5; data_ := [0; 0; 0] |} in
  0 <= size 3 st <= 3 /\
  (count_ st < 0 -> size 3 st = 0) /\
  (3 < count_ st -> size 3 st = 3) /\
  (0 <= count_ st <= 3 -> size 3 st = count_ st).
Proof.
  apply (@size_within_capacity Z 3); [lia | unfold int_range; simpl; lia].
Defined.

Lemma pop_on_empty_reads_slot_zero_witness :
  exists x,
    array_get (data_ fresh3) 0 = Some x /\
    pop fresh3 = Ok (Some x, {| count_ := -1; data_ := data_ fresh3 |}) /\
    pull 9 fresh3 = Ok (true, x, {| count_ := -1; data_ := data_ fresh3 |}).
Proof.
  apply (@pop_on_empty_reads_slot_zero Z 3); [lia | exact fresh3_ok | reflexivity].
Defined.

Lemma pop_after_push_reads_slot_above_witness :
  exists data,
    let st1 := {| count_ := count_ fresh3 + 1; data_ := data |} in
    push 3 7 fresh3 = Ok (true, st1) /\
    array_get data (count_ fresh3) = Some 7 /\
    (count_ fresh3 + 1 < 3 ->
     exists y, array_get (data_ fresh3) (count_ fresh3 + 1) = Some y /\
               pop st1 = Ok (Some y, {| count_ := count_ fresh3; data_ := data |})) /\
    (count_ fresh3 + 1 = 3 -> pop st1 = OutOfBounds).
Proof.
  apply (@pop_after_push_reads_slot_above Z 3);
    [lia | lia | exact fresh3_ok | simpl; lia].
Defined.

(** The same calls evaluated on the fresh stack: [push(7)] then [pop()]
    gives back the [0] of slot [1]; [pop()] alone gives the [0] of slot
    [0] and a counter of [-1], although [empty()] holds; and once the
    counter is [-1] every [push] is refused. *)
Example push_pop_fresh3 :
  push 3 7 fresh3 = Ok (true, {| count_ := 1; data_ := [7; 0; 0] |}) /\
  pop {| count_ := 1; data_ := [7; 0; 0] |}
  = Ok (Some 0, {| count_ := 0; data_ := [7; 0; 0] |}).
Proof. split; reflexivity. Qed.

Example pop_fresh3 :
  empty fresh3 = true /\
  pop fresh3 = Ok (Some 0, {| count_ := -1; data_ := [0; 0; 0] |}) /\
  push 3 7 {| count_ := -1; data_ := [0; 0; 0] |}
  = Ok (false, {| count_ := -1; data_ := [0; 0; 0] |}).
Proof. repeat split; reflexivity. Qed.

Example push_three_pop :
  pop {| count_ := 3; data_ := [7; 8; 9] |} = OutOfBounds.
Proof. reflexivity. Qed.

End StackProps.

(** ** The ring buffer *)

Module BufferProps.
Import MachineFacts Buffer.

Section props.
Context {T : Type}.
Variable S : Z.
Variable from_unsigned : Z -> T.

Lemma buffer_eta (b : buffer_t T) :
  {| head_ := head_ b; tail_ := tail_ b; data_ := data_ b |} = b.
Proof. destruct b; reflexivity. Qed.

(** On an empty buffer [pull] and [pop] report empty and change nothing. *)
Lemma pull_pop_empty (b : buffer_t T) (item : T) :
  head_ b = tail_ b ->
  pull S item b = Ok (false, item, b) /\ pop S from_unsigned b = Ok (None, b).
Proof.
  intros He. unfold pull, pop. cbv zeta.
  rewrite (proj2 (Z.eqb_eq _ _) He). auto.
Qed.

(** C2: on a non-empty buffer [pull(item)] copies the head slot into
    [item] and [pop()] returns the advanced head index converted to [T];
    both end in [tail_.store(tail)], so that the buffer, and with it the
    head index, is what it was before the call. *)
Theorem pull_pop_leave_head (b : buffer_t T) (item x : T) :
  head_ b <> tail_ b ->
  array_get (data_ b) (head_ b) = Some x ->
  pull S item b = Ok (true, x, b) /\
  pop S from_unsigned b = Ok (Some (from_unsigned (advance S (head_ b))), b) /\
  forall r b', pull S item b = Ok (r, b') -> head_ b' = head_ b.
Proof.
  intros Hne Hx. unfold pull, pop. cbv zeta.
  rewrite (proj2 (Z.eqb_neq _ _) Hne), Hx, buffer_eta.
  repeat split. intros r b' [= _ <-]. reflexivity.
Qed.

End props.

Lemma pull_pop_leave_head_witness :
  pull 4 0 one_pushed = Ok (true, 10, one_pushed) /\
  pop 4 id one_pushed = Ok (Some (id (advance 4 (head_ one_pushed))), one_pushed) /\
  forall r b', pull 4 0 one_pushed = Ok (r, b') -> head_ b' = head_ one_pushed.
Proof.
  apply (@pull_pop_leave_head Z 4 id one_pushed 0 10);
    [simpl; lia | reflexivity].
Defined.

(** The calls evaluated on a [buffer_t<unsigned, 4>]: [push(10)] on the
    constructed buffer, then [push(20)]; [pull] hands out [10] and leaves
    the head at [0], so a second [pull] hands out [10] again; [pop()]
    returns the index [1]. *)
Example push_pull_pull :
  push 4 10 {| head_ := 0; tail_ := 0; data_ := [0; 0; 0; 0] |} = Ok (true, one_pushed) /\
  push 4 20 one_pushed = Ok (true, {| head_ := 0; tail_ := 2; data_ := [10; 20; 0; 0] |}) /\
  pull 4 0 {| head_ := 0; tail_ := 2; data_ := [10; 20; 0; 0] |}
  = Ok (true, 10, {| head_ := 0; tail_ := 2; data_ := [10; 20; 0; 0] |}) /\
  pop 4 id {| head_ := 0; tail_ := 2; data_ := [10; 20; 0; 0] |}
  = Ok (Some 1, {| head_ := 0; tail_ := 2; data_ := [10; 20; 0; 0] |}).
Proof. repeat split; reflexivity. Qed.

End BufferProps.

(** ** The dictionary *)

Module DictionaryProps.
Import MachineFacts Dictionary.

(** *** Sums over the buckets *)

Section sums.
Context {A : Type}.
Variable f : A -> nat.

Lemma sum_list_with_insert (l : list A) (i : nat) (x y : A) :
  l !! i = Some x ->
  (sum_list_with f (<[i := y]> l) + f x = sum_list_with f l + f y)%nat.
Proof.
  revert i. induction l as [|a l IH]; intros [|i] Hi; simplify_eq/=.
  - lia.
  - specialize (IH i Hi). lia.
Qed.

Lemma sum_list_with_only (l : list A) (i : nat) (x : A) :
  l !! i = Some x ->
  (forall j y, j <> i -> l !! j = Some y -> f y = 0%nat) ->
  sum_list_with f l = f x.
Proof.
  revert i. induction l as [|a l IH]; intros [|i] Hi Hz; simplify_eq/=.
  - assert (Hl : sum_list_with f l = 0%nat).
    { clear IH. induction l as [|b l IHl]; [reflexivity|]. simpl.
      rewrite (Hz 1%nat b) by (done || lia). rewrite IHl; [reflexivity|].
      intros [|j] y Hj Hy; [lia|]. apply (Hz (Datatypes.S (Datatypes.S j)) y); [lia|exact Hy]. }
    lia.
  - rewrite (Hz 0%nat a) by (done || lia).
    apply (IH i Hi). intros j y Hj Hy.
    apply (Hz (Datatypes.S j) y); [lia|exact Hy].
Qed.

Lemma sum_list_with_replicate_zero (n : nat) (x : A) :
  f x = 0%nat -> sum_list_with f (replicate n x) = 0%nat.
Proof. intros Hx. induction n as [|n IH]; simpl; lia. Qed.

End sums.

Section chains.
Context {K V : Type} `{EqDecision K}.
Implicit Types (k : K) (v : V) (n : node K V).
Implicit Types c before after : list (node K V).

Lemma chain_contains_find k c :
  chain_contains k c = true <-> is_Some (chain_find k c).
Proof.
  induction c as [|n c IH]; simpl.
  - split; [discriminate | intros [? [=]]].
  - destruct (decide (key n = k)); [|exact IH]. split; eauto.
Qed.

Lemma chain_contains_count k c :
  chain_contains k c = false <-> chain_count k c = 0%nat.
Proof.
  unfold chain_count. induction c as [|n c IH]; simpl; [done|].
  rewrite filter_cons. destruct (decide (key n = k)); simpl; [|exact IH].
  split; [discriminate | lia].
Qed.

Lemma chain_find_None k c :
  chain_find k c = None <-> chain_contains k c = false.
Proof.
  induction c as [|n c IH]; simpl; [done|].
  destruct (decide (key n = k)); [|exact IH]. split; discriminate.
Qed.

Lemma chain_count_cons k n c :
  chain_count k (n :: c)
  = ((if decide (key n = k) then 1 else 0) + chain_count k c)%nat.
Proof.
  unfold chain_count. rewrite filter_cons.
  destruct (decide (key n = k)); reflexivity.
Qed.

(** The scan of [insert_or_assign]. *)
Lemma chain_assign_None k v c :
  chain_assign k v c = None <-> chain_contains k c = false.
Proof.
  induction c as [|n c IH]; simpl; [done|].
  destruct (decide (key n = k)); [split; discriminate|].
  rewrite fmap_None. exact IH.
Qed.

Lemma chain_assign_Some k v c c' :
  chain_assign k v c = Some c' ->
  chain_find k c' = Some v /\
  (forall k2, k2 <> k -> chain_find k2 c' = chain_find k2 c) /\
  length c' = length c /\
  (forall k2, chain_count k2 c' = chain_count k2 c) /\
  key <$> c' = key <$> c.
Proof.
  revert c'. induction c as [|n c IH]; intros c' Hc; simpl in Hc; [discriminate|].
  destruct (decide (key n = k)) as [Hk|Hk].
  - injection Hc as <-. simpl. rewrite decide_True by done.
    repeat split; [|intros k2; rewrite !chain_count_cons; reflexivity].
    intros k2 Hk2. rewrite !decide_False by congruence. reflexivity.
  - destruct (chain_assign k v c) as [c1|] eqn:E; [|discriminate].
    injection Hc as <-. destruct (IH c1 eq_refl) as (Hf & Ho & Hl & Hn & Hks).
    simpl. rewrite decide_False by done. repeat split; [done| |by f_equal| |by f_equal].
    + intros k2 Hk2. destruct (decide (key n = k2)); [reflexivity|]. by apply Ho.
    + intros k2. rewrite !chain_count_cons, Hn. reflexivity.
Qed.

(** The scan of [remove]. *)
Lemma chain_remove_None k c :
  chain_remove k c = None <-> chain_contains k c = false.
Proof.
  induction c as [|n c IH]; simpl; [done|].
  destruct (decide (key n = k)); [split; discriminate|].
  rewrite fmap_None. exact IH.
Qed.

Lemma chain_remove_Some k c c' :
  chain_remove k c = Some c' ->
  exists before n after,
    c = before ++ n :: after /\ key n = k /\
    (forall m, m ∈ before -> key m <> k) /\
    c' = before ++ after.
Proof.
  revert c'. induction c as [|n c IH]; intros c' Hc; simpl in Hc; [discriminate|].
  destruct (decide (key n = k)) as [Hk|Hk].
  - injection Hc as <-. exists [], n, c. repeat split; [done|].
    intros m Hm. by apply elem_of_nil in Hm.
  - destruct (chain_remove k c) as [c1|] eqn:E; [|discriminate].
    injection Hc as <-.
    destruct (IH c1 eq_refl) as (before & m & after & -> & Hm & Hb & ->).
    exists (n :: before), m, after. repeat split; [done|].
    intros m' [->|Hm']%elem_of_cons; [done|]. by apply Hb.
Qed.

Lemma chain_find_app_skip k before c :
  (forall m, m ∈ before -> key m <> k) ->
  chain_find k (before ++ c) = chain_find k c.
Proof.
  induction before as [|m before IH]; intros Hb; simpl; [done|].
  rewrite decide_False by (apply Hb; left).
  apply IH. intros m' Hm'. apply Hb. by right.
Qed.

Lemma chain_find_app_other k k2 before n after :
  key n = k -> k2 <> k ->
  chain_find k2 (before ++ n :: after) = chain_find k2 (before ++ after).
Proof.
  intros Hn Hk2. induction before as [|m before IH]; simpl.
  - rewrite decide_False by congruence. reflexivity.
  - destruct (decide (key m = k2)); [reflexivity | exact IH].
Qed.

Lemma chain_count_app k c1 c2 :
  chain_count k (c1 ++ c2) = (chain_count k c1 + chain_count k c2)%nat.
Proof. unfold chain_count. rewrite filter_app, length_app. reflexivity. Qed.

End chains.

(** *** Buckets of a well-formed table *)

Section table.
Context {K V : Type} `{EqDecision K}.
Variable hash : K -> Z.
Variable S : Z.
Hypothesis S_pos : 0 < S.
Implicit Types (k : K) (v : V) (n : node K V) (d : dictionary_t K V).
Implicit Types c : list (node K V).

Local Abbreviation key_index := (key_index hash S).
Local Abbreviation wf := (wf hash S).

Lemma key_index_range k : 0 <= key_index k < S.
Proof using S_pos. unfold Dictionary.key_index. apply Z.mod_pos_bound. exact S_pos. Qed.

Lemma wf_lookup d i :
  wf d -> 0 <= i < S -> table_ d !! Z.to_nat i = Some (bucket d i).
Proof.
  intros [Hlen _] Hi. unfold bucket.
  destruct (lookup_lt_is_Some_2 (table_ d) (Z.to_nat i)) as [c Hc]; [lia|].
  rewrite Hc. reflexivity.
Qed.

Lemma wf_home d i n :
  wf d -> 0 <= i < S -> n ∈ bucket d i -> key_index (key n) = i.
Proof.
  intros Hwf Hi Hn. destruct Hwf as [Hlen Hhome].
  rewrite (Hhome (Z.to_nat i) (bucket d i) n); [lia| |exact Hn].
  apply wf_lookup; [by split | exact Hi].
Qed.

Lemma bucket_store_eq d i c m :
  wf d -> 0 <= i < S ->
  bucket {| table_ := store_bucket i c d; count_ := m |} i = c.
Proof.
  intros [Hlen _] Hi. unfold bucket, store_bucket. simpl.
  rewrite list_lookup_insert_eq by lia. reflexivity.
Qed.

Lemma bucket_store_ne d i j c m :
  0 <= i -> 0 <= j -> i <> j ->
  bucket {| table_ := store_bucket i c d; count_ := m |} j = bucket d j.
Proof.
  intros Hi Hj Hne. unfold bucket, store_bucket. simpl.
  rewrite list_lookup_insert_ne by lia. reflexivity.
Qed.

Lemma node_count_store d i c m :
  wf d -> 0 <= i < S ->
  node_count {| table_ := store_bucket i c d; count_ := m |}
  + Z.of_nat (length (bucket d i))
  = node_count d + Z.of_nat (length c).
Proof.
  intros Hwf Hi. unfold node_count, store_bucket. simpl.
  pose proof (sum_list_with_insert length (table_ d) (Z.to_nat i) _ c
                (wf_lookup d i Hwf Hi)). lia.
Qed.

Lemma occurrences_store k d i c m :
  wf d -> 0 <= i < S ->
  (occurrences k {| table_ := store_bucket i c d; count_ := m |}
   + chain_count k (bucket d i)
   = occurrences k d + chain_count k c)%nat.
Proof.
  intros Hwf Hi. unfold occurrences, store_bucket. simpl.
  apply sum_list_with_insert. by apply wf_lookup.
Qed.

Lemma wf_store d i c m :
  wf d -> 0 <= i < S ->
  (forall n, n ∈ c -> key_index (key n) = i) ->
  wf {| table_ := store_bucket i c d; count_ := m |}.
Proof.
  intros [Hlen Hhome] Hi Hc. split; unfold store_bucket; simpl.
  - rewrite length_insert. exact Hlen.
  - intros j chain n Hj Hn.
    destruct (decide (j = Z.to_nat i)) as [->|Hne].
    + rewrite list_lookup_insert_eq in Hj by lia. injection Hj as <-.
      rewrite (Hc n Hn). lia.
    + rewrite list_lookup_insert_ne in Hj by done. by eapply Hhome.
Qed.

(** In a well-formed table the nodes with key [k] are those of [k]'s
    bucket. *)
Lemma occurrences_bucket k d :
  wf d -> occurrences k d = chain_count k (bucket d (key_index k)).
Proof using S_pos.
  intros Hwf. unfold occurrences.
  apply (sum_list_with_only _ _ (Z.to_nat (key_index k))).
  - apply wf_lookup; [exact Hwf | apply key_index_range].
  - intros j c Hj Hc. unfold chain_count.
    destruct (filter (fun n => key n = k) c) as [|n l] eqn:E; [reflexivity|].
    assert (Hn : n ∈ filter (fun n => key n = k) c) by (rewrite E; left).
    apply list_elem_of_filter in Hn as [Hk Hn].
    destruct Hwf as [_ Hhome]. specialize (Hhome j c n Hc Hn).
    rewrite Hk in Hhome. pose proof (key_index_range k). lia.
Qed.

Lemma wf_new : wf (@dictionary_new K V S).
Proof using S_pos.
  split; simpl.
  - rewrite length_replicate. lia.
  - intros i chain n [-> _]%lookup_replicate Hn. by apply elem_of_nil in Hn.
Qed.

Lemma node_count_new : node_count (@dictionary_new K V S) = 0.
Proof.
  unfold node_count. simpl.
  rewrite sum_list_with_replicate_zero; reflexivity.
Qed.

Lemma bucket_new i : bucket (@dictionary_new K V S) i = [].
Proof.
  unfold bucket. simpl.
  destruct (replicate (Z.to_nat S) [] !! Z.to_nat i) as [c|] eqn:E; [|reflexivity].
  by apply lookup_replicate in E as [-> _].
Qed.

Lemma find_store d i c m k :
  wf d -> 0 <= i < S ->
  find hash S k {| table_ := store_bucket i c d; count_ := m |}
  = if decide (key_index k = i) then chain_find k c else find hash S k d.
Proof using S_pos.
  intros Hwf Hi. unfold find. destruct (decide (key_index k = i)) as [->|Hne].
  - by rewrite bucket_store_eq.
  - rewrite bucket_store_ne; [reflexivity|lia| |congruence].
    apply key_index_range.
Qed.

Lemma contains_find k d :
  contains hash S k d = true <-> is_Some (find hash S k d).
Proof. apply chain_contains_find. Qed.

Lemma contains_occurrences k d :
  wf d -> contains hash S k d = false <-> occurrences k d = 0%nat.
Proof using S_pos.
  intros Hwf. rewrite occurrences_bucket by done. apply chain_contains_count.
Qed.

Lemma at_find k d :
  at_ hash S k d = match find hash S k d with
                   | Some v => inl v
                   | None => inr out_of_range
                   end.
Proof. reflexivity. Qed.

(** *** [insert] and [emplace] *)

Lemma emplace_insert k v d : emplace hash S k v d = insert hash S k v d.
Proof. reflexivity. Qed.

Lemma insert_wf k v d : wf d -> wf (insert hash S k v d).2.
Proof using S_pos.
  intros Hwf. apply wf_store; [done|apply key_index_range|].
  intros n [->|Hn]%elem_of_cons; [reflexivity|].
  eapply wf_home; [done|apply key_index_range|done].
Qed.

Lemma insert_node_count k v d :
  wf d -> node_count (insert hash S k v d).2 = node_count d + 1.
Proof using S_pos.
  intros Hwf.
  pose proof (node_count_store d (key_index k)
    ({| key := k; value := v |} :: bucket d (key_index k))
    (size_wrap (count_ d + 1)) Hwf (key_index_range k)) as Hs.
  simpl in Hs. unfold insert. simpl. lia.
Qed.

Lemma insert_find k v d k2 :
  wf d ->
  find hash S k2 (insert hash S k v d).2
  = if decide (k = k2) then Some v else find hash S k2 d.
Proof using S_pos.
  intros Hwf. unfold insert. simpl.
  rewrite find_store by (done || apply key_index_range).
  destruct (decide (key_index k2 = key_index k)) as [Hi|Hi]; simpl.
  - destruct (decide (k = k2)); [reflexivity|]. unfold find. by rewrite Hi.
  - rewrite decide_False by congruence. reflexivity.
Qed.

Lemma insert_occurrences k v d k2 :
  wf d ->
  occurrences k2 (insert hash S k v d).2
  = ((if decide (k = k2) then 1 else 0) + occurrences k2 d)%nat.
Proof using S_pos.
  intros Hwf.
  pose proof (occurrences_store k2 d (key_index k)
    ({| key := k; value := v |} :: bucket d (key_index k))
    (size_wrap (count_ d + 1)) Hwf (key_index_range k)) as Hs.
  rewrite chain_count_cons in Hs. simpl in Hs. unfold insert. simpl. lia.
Qed.

(** *** [insert_or_assign] *)

Lemma insert_or_assign_wf k v d : wf d -> wf (insert_or_assign hash S k v d).2.
Proof using S_pos.
  intros Hwf. unfold insert_or_assign.
  destruct (chain_assign k v (bucket d (key_index k))) as [c|] eqn:E;
    [|by apply insert_wf].
  apply wf_store; [done|apply key_index_range|]. intros n Hn.
  apply chain_assign_Some in E as (_ & _ & _ & _ & Hkeys).
  assert (Hk : key n ∈ key <$> bucket d (key_index k)).
  { rewrite <- Hkeys. apply list_elem_of_fmap. eauto. }
  apply list_elem_of_fmap in Hk as (n' & -> & Hn').
  eapply wf_home; [done|apply key_index_range|done].
Qed.

Lemma insert_or_assign_find k v d k2 :
  wf d ->
  find hash S k2 (insert_or_assign hash S k v d).2
  = if decide (k = k2) then Some v else find hash S k2 d.
Proof using S_pos.
  intros Hwf. unfold insert_or_assign.
  destruct (chain_assign k v (bucket d (key_index k))) as [c|] eqn:E;
    [|by apply insert_find].
  simpl. rewrite find_store by (done || apply key_index_range).
  apply chain_assign_Some in E as (Hf & Ho & _).
  destruct (decide (k = k2)) as [<-|Hne].
  - by rewrite decide_True.
  - destruct (decide (key_index k2 = key_index k)) as [Hi|Hi]; [|reflexivity].
    unfold find. rewrite Hi. apply Ho. congruence.
Qed.

Lemma insert_or_assign_occurrences k v d k2 :
  wf d ->
  occurrences k2 (insert_or_assign hash S k v d).2
  = if decide (k = k2) then Nat.max 1 (occurrences k2 d) else occurrences k2 d.
Proof using S_pos.
  intros Hwf. unfold insert_or_assign.
  destruct (chain_assign k v (bucket d (key_index k))) as [c|] eqn:E.
  - pose proof (occurrences_store k2 d (key_index k) c (count_ d)
                  Hwf (key_index_range k)) as Hs.
    assert (Hin : chain_contains k (bucket d (key_index k)) = true).
    { destruct (chain_contains k (bucket d (key_index k))) eqn:Hc; [done|].
      apply chain_assign_None with (v := v) in Hc. congruence. }
    apply chain_assign_Some in E as (_ & _ & _ & Hn & _).
    rewrite Hn in Hs. simpl.
    destruct (decide (k = k2)) as [<-|Hne]; [|lia].
    assert (occurrences k d <> 0%nat); [|lia].
    rewrite <- contains_occurrences by done. unfold contains. congruence.
  - cbn [snd]. rewrite insert_occurrences by done.
    destruct (decide (k = k2)) as [<-|Hne]; [|lia].
    apply chain_assign_None in E.
    assert (occurrences k d = 0%nat) by (by apply contains_occurrences).
    lia.
Qed.

Lemma insert_or_assign_node_count k v d :
  wf d ->
  node_count (insert_or_assign hash S k v d).2
  = node_count d + (if contains hash S k d then 0 else 1) /\
  count_ (insert_or_assign hash S k v d).2
  = if contains hash S k d then count_ d else size_wrap (count_ d + 1).
Proof using S_pos.
  intros Hwf. unfold insert_or_assign, contains.
  destruct (chain_assign k v (bucket d (key_index k))) as [c|] eqn:E.
  - assert (Hin : chain_contains k (bucket d (key_index k)) = true).
    { destruct (chain_contains k (bucket d (key_index k))) eqn:Hc; [done|].
      apply chain_assign_None with (v := v) in Hc. congruence. }
    rewrite Hin. simpl. split; [|reflexivity].
    pose proof (node_count_store d (key_index k) c (count_ d)
                  Hwf (key_index_range k)) as Hs.
    apply chain_assign_Some in E as (_ & _ & Hl & _). lia.
  - apply chain_assign_None in E. rewrite E.
    split; [by apply insert_node_count | reflexivity].
Qed.

(** *** [remove] *)

Lemma remove_absent k d :
  contains hash S k d = false -> remove hash S k d = (false, d).
Proof.
  unfold contains, remove. intros Hc.
  apply chain_remove_None in Hc. rewrite Hc. reflexivity.
Qed.

Lemma remove_present k d :
  contains hash S k d = true ->
  exists before n after,
    bucket d (key_index k) = before ++ n :: after /\ key n = k /\
    (forall m, m ∈ before -> key m <> k) /\
    remove hash S k d
    = (true, {| table_ := store_bucket (key_index k) (before ++ after) d;
                count_ := size_wrap (count_ d - 1) |}).
Proof.
  unfold contains, remove. intros Hc.
  destruct (chain_remove k (bucket d (key_index k))) as [c|] eqn:E.
  - apply chain_remove_Some in E as (before & n & after & Hb & Hn & Hbefore & ->).
    exists before, n, after. auto.
  - apply chain_remove_None in E. congruence.
Qed.

Lemma remove_result k d :
  (remove hash S k d).1 = contains hash S k d.
Proof.
  destruct (contains hash S k d) eqn:Hc.
  - destruct (remove_present k d Hc) as (? & ? & ? & _ & _ & _ & ->). reflexivity.
  - by rewrite remove_absent.
Qed.

Lemma remove_wf k d : wf d -> wf (remove hash S k d).2.
Proof using S_pos.
  intros Hwf. destruct (contains hash S k d) eqn:Hc.
  - destruct (remove_present k d Hc) as (before & n & after & Hb & _ & _ & ->).
    apply wf_store; [done|apply key_index_range|]. intros m Hm.
    eapply wf_home; [done|apply key_index_range|].
    rewrite Hb. apply elem_of_app in Hm as [Hm|Hm]; apply elem_of_app;
      [by left | right; by right].
  - by rewrite remove_absent.
Qed.

Lemma remove_node_count k d :
  wf d ->
  node_count (remove hash S k d).2
  = node_count d - (if contains hash S k d then 1 else 0) /\
  count_ (remove hash S k d).2
  = if contains hash S k d then size_wrap (count_ d - 1) else count_ d.
Proof using S_pos.
  intros Hwf. destruct (contains hash S k d) eqn:Hc.
  - destruct (remove_present k d Hc) as (before & n & after & Hb & _ & _ & ->).
    split; [|reflexivity]. cbn [snd].
    pose proof (node_count_store d (key_index k) (before ++ after)
                  (size_wrap (count_ d - 1)) Hwf (key_index_range k)) as Hs.
    rewrite Hb, !length_app in Hs. simpl in Hs. lia.
  - rewrite remove_absent by done. split; [simpl; lia | reflexivity].
Qed.

Lemma remove_occurrences k d k2 :
  wf d ->
  occurrences k2 (remove hash S k d).2
  = if decide (k = k2) then Nat.pred (occurrences k2 d) else occurrences k2 d.
Proof using S_pos.
  intros Hwf. destruct (contains hash S k d) eqn:Hc.
  - destruct (remove_present k d Hc) as (before & n & after & Hb & Hn & _ & ->).
    cbn [snd].
    pose proof (occurrences_store k2 d (key_index k) (before ++ after)
                  (size_wrap (count_ d - 1)) Hwf (key_index_range k)) as Hs.
    rewrite Hb, !chain_count_app, chain_count_cons in Hs.
    destruct (decide (k = k2)) as [<-|Hne].
    + rewrite decide_True in Hs by done. lia.
    + rewrite decide_False in Hs by congruence. lia.
  - rewrite remove_absent by done. cbn [snd].
    destruct (decide (k = k2)) as [<-|Hne]; [|reflexivity].
    apply contains_occurrences in Hc; [|done]. rewrite Hc. reflexivity.
Qed.

Lemma remove_find_other k d k2 :
  wf d -> k2 <> k ->
  find hash S k2 (remove hash S k d).2 = find hash S k2 d.
Proof using S_pos.
  intros Hwf Hne. destruct (contains hash S k d) eqn:Hc.
  - destruct (remove_present k d Hc) as (before & n & after & Hb & Hn & _ & ->).
    cbn [snd]. rewrite find_store by (done || apply key_index_range).
    destruct (decide (key_index k2 = key_index k)) as [Hi|Hi]; [|reflexivity].
    unfold find. rewrite Hi, Hb. symmetry. by apply chain_find_app_other with k.
  - by rewrite remove_absent.
Qed.

(** Removing a key that was just inserted unlinks the new node. *)
Lemma remove_insert_table k v d :
  wf d -> table_ (remove hash S k (insert hash S k v d).2).2 = table_ d.
Proof using S_pos.
  intros Hwf. unfold remove, insert. cbn [snd].
  rewrite bucket_store_eq by (done || apply key_index_range).
  simpl. rewrite decide_True by done. simpl. unfold store_bucket. simpl.
  rewrite list_insert_insert_eq. apply list_insert_id.
  apply wf_lookup; [done | apply key_index_range].
Qed.

(** *** [clear] *)

Lemma clear_wf d : wf d -> wf (clear d).
Proof.
  intros [Hlen _]. split; simpl.
  - rewrite length_fmap. exact Hlen.
  - intros i chain n Hi Hn. rewrite list_lookup_fmap in Hi.
    destruct (table_ d !! i); simplify_eq/=. by apply elem_of_nil in Hn.
Qed.

Lemma clear_node_count d : node_count (clear d) = 0.
Proof.
  unfold node_count, clear. simpl.
  assert (Hz : sum_list_with length ((fun _ => @nil (node K V)) <$> table_ d) = 0%nat).
  { induction (table_ d) as [|c l IH]; [reflexivity | exact IH]. }
  rewrite Hz. reflexivity.
Qed.

(** *** [try_emplace] *)

Variable moved_from : K -> K.

Lemma try_emplace_unfold k v d :
  try_emplace hash S moved_from k v d
  = if chain_contains (moved_from k) (bucket d (key_index k)) then (false, d)
    else (true, (insert hash S k v d).2).
Proof. reflexivity. Qed.

Lemma try_emplace_wf k v d :
  wf d -> wf (try_emplace hash S moved_from k v d).2.
Proof using S_pos.
  intros Hwf. rewrite try_emplace_unfold.
  destruct (chain_contains _ _); [done | by apply insert_wf].
Qed.

(** With a key type whose move is a copy, [try_emplace] refuses a key that
    is present and inserts one that is absent. *)
Lemma try_emplace_copied_key k v d :
  wf d -> moved_from k = k ->
  (contains hash S k d = true ->
   try_emplace hash S moved_from k v d = (false, d)) /\
  (contains hash S k d = false ->
   (try_emplace hash S moved_from k v d).1 = true /\
   find hash S k (try_emplace hash S moved_from k v d).2 = Some v).
Proof using S_pos.
  intros Hwf Hk. rewrite try_emplace_unfold, Hk. unfold contains.
  split; intros ->; [reflexivity|]. split; [reflexivity|].
  cbn [snd]. rewrite insert_find by done. by rewrite decide_True.
Qed.

(** *** The invariant of the constructed table *)

Local Abbreviation step := (step hash S moved_from).
Local Abbreviation run := (run hash S moved_from).

Lemma count_ok_succ d m :
  count_ok d -> m = node_count d + 1 -> size_wrap (count_ d + 1) = size_wrap m.
Proof. unfold count_ok. intros -> ->. apply size_wrap_succ. Qed.

Lemma step_inv d op :
  wf d /\ count_ok d -> wf (step d op) /\ count_ok (step d op).
Proof using S_pos.
  intros [Hwf Hc]. destruct op as [k v|k v|k v|k v|k|]; cbn [Dictionary.step].
  - split; [by apply insert_wf|]. unfold count_ok.
    rewrite insert_node_count by done. by apply count_ok_succ.
  - split; [by apply insert_or_assign_wf|]. unfold count_ok.
    destruct (insert_or_assign_node_count k v d Hwf) as [-> ->].
    destruct (contains hash S k d); [by rewrite Z.add_0_r|].
    by apply count_ok_succ.
  - rewrite emplace_insert. split; [by apply insert_wf|]. unfold count_ok.
    rewrite insert_node_count by done. by apply count_ok_succ.
  - split; [by apply try_emplace_wf|]. rewrite try_emplace_unfold.
    destruct (chain_contains _ _); [done|]. unfold count_ok. cbn [snd].
    rewrite insert_node_count by done. by apply count_ok_succ.
  - split; [by apply remove_wf|]. unfold count_ok.
    destruct (remove_node_count k d Hwf) as [-> ->].
    destruct (contains hash S k d); [|by rewrite Z.sub_0_r].
    rewrite Hc. apply size_wrap_pred.
  - split; [by apply clear_wf|]. unfold count_ok.
    rewrite clear_node_count. reflexivity.
Qed.

Lemma run_inv ops d :
  wf d /\ count_ok d -> wf (run ops d) /\ count_ok (run ops d).
Proof using S_pos.
  revert d. induction ops as [|op ops IH]; intros d Hd; [exact Hd|].
  simpl. apply IH. by apply step_inv.
Qed.

Lemma new_inv : wf (@dictionary_new K V S) /\ count_ok (@dictionary_new K V S).
Proof using S_pos.
  split; [apply wf_new; exact S_pos|]. unfold count_ok.
  rewrite node_count_new. reflexivity.
Qed.

Lemma node_count_nonneg d : 0 <= node_count d.
Proof. unfold node_count. lia. Qed.

(** *** Sequences of calls *)

Lemma assign_all_wf kvs d : wf d -> wf (assign_all hash S kvs d).
Proof using S_pos.
  revert d. induction kvs as [|[k v] kvs IH]; intros d Hwf; [exact Hwf|].
  simpl. apply IH. by apply insert_or_assign_wf.
Qed.

Lemma assign_all_find kvs d k :
  wf d ->
  find hash S k (assign_all hash S kvs d)
  = match last_assigned k kvs with
    | Some v => Some v
    | None => find hash S k d
    end.
Proof using S_pos.
  revert d. induction kvs as [|[k' v'] kvs IH]; intros d Hwf; [reflexivity|].
  simpl. rewrite IH by (by apply insert_or_assign_wf).
  destruct (last_assigned k kvs); [reflexivity|].
  rewrite insert_or_assign_find by done.
  destruct (decide (k' = k)); reflexivity.
Qed.

Lemma assign_all_occurrences kvs d k :
  wf d -> (occurrences k d <= 1)%nat ->
  (occurrences k (assign_all hash S kvs d) <= 1)%nat.
Proof using S_pos.
  revert d. induction kvs as [|[k' v'] kvs IH]; intros d Hwf Hd; [exact Hd|].
  simpl. apply IH; [by apply insert_or_assign_wf|].
  rewrite insert_or_assign_occurrences by done.
  destruct (decide (k' = k)); lia.
Qed.

Lemma insert_all_cons k v kvs d :
  insert_all hash S ((k, v) :: kvs) d
  = ((true, size (insert hash S k v d).2)
       :: (insert_all hash S kvs (insert hash S k v d).2).1,
     (insert_all hash S kvs (insert hash S k v d).2).2).
Proof.
  cbn [insert_all]. unfold insert at 1. cbv zeta.
  destruct (insert_all hash S kvs _) as [trace d2]. reflexivity.
Qed.

Lemma insert_all_find kvs d k :
  wf d ->
  find hash S k (insert_all hash S kvs d).2
  = match last_assigned k kvs with
    | Some v => Some v
    | None => find hash S k d
    end.
Proof using S_pos.
  revert d. induction kvs as [|[k' v'] kvs IH]; intros d Hwf; [reflexivity|].
  rewrite insert_all_cons. cbn [snd last_assigned].
  rewrite IH by (by apply insert_wf).
  destruct (last_assigned k kvs); [reflexivity|].
  rewrite insert_find by done.
  destruct (decide (k' = k)); reflexivity.
Qed.

Lemma insert_all_trace kvs d :
  wf d -> 0 <= size d -> size d + Z.of_nat (length kvs) < 2 ^ 64 ->
  length (insert_all hash S kvs d).1 = length kvs /\
  (forall i : nat, (i < length kvs)%nat ->
     (insert_all hash S kvs d).1 !! i = Some (true, size d + Z.of_nat i + 1)) /\
  node_count (insert_all hash S kvs d).2 = node_count d + Z.of_nat (length kvs) /\
  size (insert_all hash S kvs d).2 = size d + Z.of_nat (length kvs).
Proof using S_pos.
  revert d. induction kvs as [|[k v] kvs IH]; intros d Hwf H0 Hmax.
  - simpl. repeat split; [|lia|lia]. intros i Hi. simpl in Hi. lia.
  - rewrite insert_all_cons. cbn [fst snd length] in *.
    assert (Hsz : size (insert hash S k v d).2 = size d + 1).
    { unfold size, insert in *. simpl. apply size_wrap_id. unfold size_range. lia. }
    destruct (IH (insert hash S k v d).2) as (Hl & Ht & Hn & Hs);
      [by apply insert_wf|lia|lia|].
    rewrite Hl, Hn, Hs, Hsz, insert_node_count by done.
    repeat split; [|lia|lia].
    intros [|i] Hi; rewrite lookup_cons; [do 2 f_equal; lia|].
    rewrite Ht, Hsz by lia. do 2 f_equal. lia.
Qed.

(** *** The claims *)

(** C1: after a sequence of [insert_or_assign] calls, [find(k)] returns the
    value of the last call whose key is [k], and [k] sits in exactly one
    node when the table the sequence started from held it at most once
    (as the constructed table does). *)
Theorem insert_or_assign_last_value (d0 : dictionary_t K V) kvs k v :
  wf d0 ->
  last_assigned k kvs = Some v ->
  find hash S k (assign_all hash S kvs d0) = Some v /\
  ((occurrences k d0 <= 1)%nat ->
   occurrences k (assign_all hash S kvs d0) = 1%nat).
Proof using S_pos.
  intros Hwf Hlast.
  assert (Hfind : find hash S k (assign_all hash S kvs d0) = Some v).
  { rewrite assign_all_find by done. by rewrite Hlast. }
  split; [exact Hfind|]. intros Hocc.
  pose proof (assign_all_occurrences kvs d0 k Hwf Hocc) as Hle.
  assert (occurrences k (assign_all hash S kvs d0) <> 0%nat); [|lia].
  rewrite <- contains_occurrences by (by apply assign_all_wf).
  assert (Hc : contains hash S k (assign_all hash S kvs d0) = true).
  { apply contains_find. rewrite Hfind. eauto. }
  congruence.
Qed.

(** C5: after every sequence of [insert], [insert_or_assign], [emplace],
    [try_emplace], [remove] and [clear] calls on a constructed dictionary,
    [size()] is the number of nodes reachable from the bucket heads (a
    number that fits [std::size_t], each node being a heap object). *)
Theorem size_counts_nodes (ops : list (operation K V)) :
  node_count (run ops (dictionary_new S)) < 2 ^ 64 ->
  size (run ops (dictionary_new S)) = node_count (run ops (dictionary_new S)).
Proof using S_pos.
  intros Hfit. destruct (run_inv ops _ new_inv) as [_ Hc].
  unfold size. rewrite Hc. apply size_wrap_id.
  split; [apply node_count_nonneg | exact Hfit].
Qed.

(** C6, amended: when [k] sits in at most one node, [contains(k)] is false
    after [remove(k)]; and [remove(k)] of an absent key returns false and
    leaves the dictionary as it was. *)
Theorem remove_then_contains (d : dictionary_t K V) k :
  wf d ->
  (occurrences k d <= 1)%nat ->
  contains hash S k (remove hash S k d).2 = false /\
  (contains hash S k d = false -> remove hash S k d = (false, d)).
Proof using S_pos.
  intros Hwf Hocc. split; [|apply remove_absent].
  apply contains_occurrences; [by apply remove_wf|].
  rewrite remove_occurrences by done. rewrite decide_True by done. lia.
Qed.

(** C7: [try_emplace] scans the bucket for the key as the move into the
    new node left it.  When that moved-from key is not in the bucket, a key
    that is present is not found: the call returns true, prepends a second
    node for it, and [find] returns the new value. *)
Theorem try_emplace_scans_moved_key (d : dictionary_t K V) k v :
  wf d ->
  contains hash S k d = true ->
  chain_contains (moved_from k) (bucket d (key_index k)) = false ->
  try_emplace hash S moved_from k v d = (true, (emplace hash S k v d).2) /\
  find hash S k (try_emplace hash S moved_from k v d).2 = Some v /\
  occurrences k (try_emplace hash S moved_from k v d).2
  = Datatypes.S (occurrences k d) /\
  (2 <= occurrences k (try_emplace hash S moved_from k v d).2)%nat.
Proof using S_pos.
  intros Hwf Hin Hmoved. rewrite try_emplace_unfold, Hmoved. cbn [snd].
  assert (Hocc : occurrences k d <> 0%nat).
  { rewrite <- contains_occurrences by done. congruence. }
  rewrite insert_find, insert_occurrences, !decide_True by done.
  repeat split. lia.
Qed.

(** C8: every [insert] of a sequence returns true and leaves [size()] one
    above what it was, whatever keys the table holds; the sequence adds as
    many nodes as it has calls; and afterwards [find(k)] and [at(k)] give
    the value of the last call whose key is [k]. *)
Theorem insert_sequence (d : dictionary_t K V) kvs :
  wf d ->
  0 <= size d ->
  size d + Z.of_nat (length kvs) < 2 ^ 64 ->
  length (insert_all hash S kvs d).1 = length kvs /\
  (forall i : nat, (i < length kvs)%nat ->
     (insert_all hash S kvs d).1 !! i = Some (true, size d + Z.of_nat i + 1)) /\
  node_count (insert_all hash S kvs d).2 = node_count d + Z.of_nat (length kvs) /\
  (forall k v, last_assigned k kvs = Some v ->
     find hash S k (insert_all hash S kvs d).2 = Some v /\
     at_ hash S k (insert_all hash S kvs d).2 = inl v).
Proof using S_pos.
  intros Hwf H0 Hmax.
  destruct (insert_all_trace kvs d Hwf H0 Hmax) as (Hl & Ht & Hn & _).
  split; [exact Hl|]. split; [exact Ht|]. split; [exact Hn|].
  intros k v Hlast. rewrite at_find, insert_all_find, Hlast by done. done.
Qed.

(** C10: a [remove(k)] that returns true unlinks the first node of [k]'s
    chain whose key is [k] and nothing else: the other nodes of the chain
    keep their order, the other buckets and the lookups of the other keys
    are unchanged, and one node less holds [k].  That first node is the
    most recently inserted one: [remove(k)] right after [insert(k, v)]
    gives back the table as it was before the [insert], so that after two
    [insert]s of [k] and one [remove(k)] the older entry is found. *)
Theorem remove_unlinks_first_match (d : dictionary_t K V) k :
  wf d ->
  (remove hash S k d).1 = true ->
  (exists before n after,
     bucket d (key_index k) = before ++ n :: after /\ key n = k /\
     (forall m, m ∈ before -> key m <> k) /\
     table_ (remove hash S k d).2
     = <[Z.to_nat (key_index k) := before ++ after]> (table_ d)) /\
  node_count (remove hash S k d).2 = node_count d - 1 /\
  (forall i, 0 <= i -> i <> key_index k ->
     bucket (remove hash S k d).2 i = bucket d i) /\
  (forall k2, k2 <> k ->
     find hash S k2 (remove hash S k d).2 = find hash S k2 d /\
     occurrences k2 (remove hash S k d).2 = occurrences k2 d) /\
  Datatypes.S (occurrences k (remove hash S k d).2) = occurrences k d /\
  (forall v, table_ (remove hash S k (insert hash S k v d).2).2 = table_ d) /\
  (forall v1 v2,
     find hash S k
       (remove hash S k (insert hash S k v2 (insert hash S k v1 d).2).2).2
     = Some v1).
Proof using S_pos.
  intros Hwf Hr. rewrite remove_result in Hr.
  pose proof (key_index_range k) as Hk.
  split; [|split; [|split; [|split; [|split; [|split]]]]].
  - destruct (remove_present k d Hr) as (before & n & after & Hb & Hn & Hbefore & ->).
    exists before, n, after. auto.
  - destruct (remove_node_count k d Hwf) as [-> _]. by rewrite Hr.
  - intros i Hi Hne.
    destruct (remove_present k d Hr) as (before & n & after & _ & _ & _ & ->).
    cbn [snd]. apply bucket_store_ne; lia.
  - intros k2 Hk2. split; [by apply remove_find_other|].
    rewrite remove_occurrences by done. by rewrite decide_False.
  - rewrite remove_occurrences, decide_True by done.
    assert (occurrences k d <> 0%nat); [|lia].
    rewrite <- contains_occurrences by done. congruence.
  - intros v. by apply remove_insert_table.
  - intros v1 v2.
    assert (Hwf1 : wf (insert hash S k v1 d).2) by (by apply insert_wf).
    pose proof (remove_insert_table k v2 _ Hwf1) as Ht.
    unfold find, bucket in *. rewrite Ht.
    pose proof (insert_find k v1 d k Hwf) as Hf.
    unfold find, bucket in Hf. rewrite Hf. by rewrite decide_True.
Qed.

End table.

(** *** The claims at concrete dictionaries *)

Lemma sixteen_pos : 0 < 16.
Proof. lia. Qed.

Lemma twice_inserted_wf : wf int_hash 16 twice_inserted.
Proof.
  apply (run_inv int_hash 16 sixteen_pos int_moved_from).
  apply new_inv. exact sixteen_pos.
Qed.

Lemma holding_a_wf : wf string_hash 16 holding_a.
Proof. apply insert_wf, wf_new; exact sixteen_pos. Qed.

Lemma insert_or_assign_last_value_witness :
  let kvs := [(1, 10); (2, 20); (1, 30)] in
  last_assigned 1 kvs = Some 30 /\
  find int_hash 16 1 (assign_all int_hash 16 kvs (dictionary_new 16)) = Some 30 /\
  occurrences 1 (assign_all int_hash 16 kvs (dictionary_new 16)) = 1%nat.
Proof.
  intros kvs.
  destruct (insert_or_assign_last_value int_hash 16 sixteen_pos
              (dictionary_new 16) kvs 1 30) as [Hfind Hocc];
    [apply wf_new; exact sixteen_pos | reflexivity |].
  split; [reflexivity|]. split; [exact Hfind|].
  apply Hocc. vm_compute. lia.
Defined.

Lemma size_counts_nodes_witness :
  let ops := [Insert 1 10; InsertOrAssign 1 11; Emplace 17 5; TryEmplace 17 6;
              Remove 1; Insert 3 3; Clear; Insert 2 2; Insert 2 4] in
  node_count (run int_hash 16 int_moved_from ops (dictionary_new 16)) < 2 ^ 64 /\
  size (run int_hash 16 int_moved_from ops (dictionary_new 16))
  = node_count (run int_hash 16 int_moved_from ops (dictionary_new 16)).
Proof.
  intros ops.
  assert (Hfit : node_count (run int_hash 16 int_moved_from ops (dictionary_new 16))
                 < 2 ^ 64) by (vm_compute; reflexivity).
  split; [exact Hfit|].
  exact (size_counts_nodes int_hash 16 sixteen_pos int_moved_from ops Hfit).
Defined.

(** C6 as stated fails on a table that holds a key twice: after
    [insert(1, 10); insert(1, 20)], [remove(1)] returns true and
    [contains(1)] still holds. *)
Lemma remove_then_contains_counterexample :
  (remove int_hash 16 1 twice_inserted).1 = true /\
  contains int_hash 16 1 (remove int_hash 16 1 twice_inserted).2 = true.
Proof. split; reflexivity. Qed.

Lemma remove_then_contains_witness :
  let d := (insert int_hash 16 1 10 (dictionary_new 16)).2 in
  (occurrences 1%Z d <= 1)%nat /\
  contains int_hash 16 1 (remove int_hash 16 1 d).2 = false /\
  (contains int_hash 16 1 d = false -> remove int_hash 16 1 d = (false, d)).
Proof.
  intros d.
  assert (Hocc : (occurrences 1%Z d <= 1)%nat) by (vm_compute; lia).
  split; [exact Hocc|].
  apply (remove_then_contains int_hash 16 sixteen_pos d 1); [|exact Hocc].
  apply insert_wf, wf_new; exact sixteen_pos.
Defined.

Lemma try_emplace_scans_moved_key_witness :
  contains string_hash 16 "a"%string holding_a = true /\
  try_emplace string_hash 16 string_moved_from "a"%string 2 holding_a
  = (true, (emplace string_hash 16 "a"%string 2 holding_a).2) /\
  find string_hash 16 "a"%string
    (try_emplace string_hash 16 string_moved_from "a"%string 2 holding_a).2
  = Some 2 /\
  (2 <= occurrences "a"%string
          (try_emplace string_hash 16 string_moved_from "a"%string 2%Z holding_a).2)%nat.
Proof.
  destruct (try_emplace_scans_moved_key string_hash 16 sixteen_pos
              string_moved_from holding_a "a"%string 2)
    as (Hr & Hf & _ & Ho);
    [exact holding_a_wf | reflexivity | reflexivity |].
  split; [reflexivity|]. split; [exact Hr|]. split; [exact Hf | exact Ho].
Defined.

Lemma insert_sequence_witness :
  let kvs := [(1, 10); (1, 20); (2, 5)] in
  let d := dictionary_new 16 in
  (insert_all int_hash 16 kvs d).1 = [(true, 1); (true, 2); (true, 3)] /\
  node_count (insert_all int_hash 16 kvs d).2 = 3 /\
  find int_hash 16 1 (insert_all int_hash 16 kvs d).2 = Some 20 /\
  at_ int_hash 16 1 (insert_all int_hash 16 kvs d).2 = inl 20.
Proof.
  intros kvs d.
  destruct (insert_sequence int_hash 16 sixteen_pos d kvs)
    as (_ & _ & Hn & Hfind);
    [apply wf_new; exact sixteen_pos | simpl; lia | simpl; lia |].
  split; [reflexivity|]. split; [exact Hn|].
  apply Hfind. reflexivity.
Defined.

Lemma remove_unlinks_first_match_witness :
  (remove int_hash 16 1 twice_inserted).1 = true /\
  node_count (remove int_hash 16 1 twice_inserted).2
  = node_count twice_inserted - 1 /\
  Datatypes.S (occurrences 1 (remove int_hash 16 1 twice_inserted).2)
  = occurrences 1 twice_inserted /\
  (forall k2, k2 <> 1 ->
     find int_hash 16 k2 (remove int_hash 16 1 twice_inserted).2
     = find int_hash 16 k2 twice_inserted).
Proof.
  destruct (remove_unlinks_first_match int_hash 16 sixteen_pos twice_inserted 1)
    as (_ & Hn & _ & Hother & Hocc & _);
    [exact twice_inserted_wf | reflexivity |].
  split; [reflexivity|]. split; [exact Hn|]. split; [exact Hocc|].
  intros k2 Hk2. apply Hother. exact Hk2.
Defined.

(** The calls evaluated. *)

Example try_emplace_string_key :
  try_emplace string_hash 16 string_moved_from "a"%string 2 holding_a
  = (true,
     {| table_ := <[1%nat := [{| key := "a"%string; value := 2 |};
                             {| key := "a"%string; value := 1 |}]]>
                    (replicate 16 []);
        count_ := 2 |}).
Proof. reflexivity. Qed.

Example try_emplace_int_key :
  let d := (insert int_hash 16 1 10 (dictionary_new 16)).2 in
  try_emplace int_hash 16 int_moved_from 1 20 d = (false, d) /\
  (try_emplace int_hash 16 int_moved_from 2 20 d).1 = true /\
  find int_hash 16 2 (try_emplace int_hash 16 int_moved_from 2 20 d).2 = Some 20.
Proof. repeat split; reflexivity. Qed.

Example remove_twice_inserted :
  find int_hash 16 1 twice_inserted = Some 20 /\
  find int_hash 16 1 (remove int_hash 16 1 twice_inserted).2 = Some 10 /\
  size (remove int_hash 16 1 twice_inserted).2 = 1.
Proof. repeat split; reflexivity. Qed.

End DictionaryProps.

(** * Further properties *)

(** ** The bounded stack: refused pushes, filling, the rollback of [pop] *)

Module StackMore.
Import MachineFacts Stack.

Lemma int_wrap_succ_pred c : int_range c -> int_wrap (int_wrap (c + 1) - 1) = c.
Proof.
  unfold int_range, int_wrap. intros Hc.
  replace ((c + 1 + 2 ^ 31) mod 2 ^ 32 - 2 ^ 31 - 1 + 2 ^ 31)
    with ((c + 1 + 2 ^ 31) mod 2 ^ 32 - 1) by lia.
  rewrite Zminus_mod_idemp_l.
  replace (c + 1 + 2 ^ 31 - 1) with (c + 2 ^ 31) by lia.
  rewrite Z.mod_small by lia. lia.
Qed.

Lemma int_wrap_pred_succ c : int_range c -> int_wrap (int_wrap (c - 1) + 1) = c.
Proof.
  unfold int_range, int_wrap. intros Hc.
  replace ((c - 1 + 2 ^ 31) mod 2 ^ 32 - 2 ^ 31 + 1 + 2 ^ 31)
    with ((c - 1 + 2 ^ 31) mod 2 ^ 32 + 1) by lia.
  rewrite Zplus_mod_idemp_l.
  replace (c - 1 + 2 ^ 31 + 1) with (c + 2 ^ 31) by lia.
  rewrite Z.mod_small by lia. lia.
Qed.

Section more.
Context {T : Type}.
Variable S : Z.
(** [static_assert(S > 2)], and the capacity is counted by an [int]. *)
Hypothesis S_static_assert : 2 < S.
Hypothesis S_int : S < 2 ^ 31.

Lemma stack_eta (st : stack_t T) :
  {| count_ := count_ st; data_ := data_ st |} = st.
Proof. destruct st; reflexivity. Qed.

Lemma full_spec (st : stack_t T) :
  int_range (count_ st) ->
  full S st = true <-> count_ st < 0 \/ S <= count_ st.
Proof using S_static_assert S_int.
  intros Hr. unfold full, size_wrap, int_range in *.
  destruct (Z_lt_ge_dec (count_ st) 0) as [Hneg|Hpos].
  - replace (count_ st mod 2 ^ 64) with (count_ st + 2 ^ 64).
    + destruct (Z.geb_spec (count_ st + 2 ^ 64) S); [tauto|lia].
    + apply Z.mod_unique with (-1); lia.
  - rewrite Z.mod_small by lia.
    destruct (Z.geb_spec (count_ st) S); split; try done; [right; lia|].
    intros [?|?]; lia.
Qed.

Lemma push_full (x : T) (st : stack_t T) :
  stack_ok S st -> full S st = true -> push S x st = Ok (false, st).
Proof.
  intros [Hr Hlen] Hfull. unfold push. cbv zeta. cbn [count_ data_].
  unfold full in Hfull. rewrite Hfull.
  rewrite int_wrap_succ_pred by done. by rewrite stack_eta.
Qed.

Lemma push_not_full (x : T) (st : stack_t T) :
  stack_ok S st -> full S st = false ->
  push S x st
  = Ok (true, {| count_ := count_ st + 1;
                 data_ := <[Z.to_nat (count_ st) := x]> (data_ st) |}).
Proof using S_static_assert S_int.
  intros [Hr Hlen] Hfull. unfold push. cbv zeta. cbn [count_ data_].
  assert (Hc : 0 <= count_ st < S).
  { destruct (Z_lt_ge_dec (count_ st) 0); [|destruct (Z_lt_ge_dec (count_ st) S)];
      [| lia |];
      assert (full S st = true) by (apply full_spec; [done|lia]); congruence. }
  unfold full in Hfull. rewrite Hfull. unfold array_set.
  rewrite decide_True by lia.
  rewrite int_wrap_id by (unfold int_range; lia). reflexivity.
Qed.

(** X1: [push] is refused exactly when [full()] holds, that is when the
    counter is at or above [S] or negative, and a refused [push] leaves
    the stack as it was; an accepted [push] writes the slot the counter
    names and adds one to the counter. *)
Theorem push_refused_iff_full (x : T) (st : stack_t T) :
  stack_ok S st ->
  (full S st = true <-> count_ st < 0 \/ S <= count_ st) /\
  (full S st = true -> push S x st = Ok (false, st)) /\
  (full S st = false ->
   push S x st
   = Ok (true, {| count_ := count_ st + 1;
                  data_ := <[Z.to_nat (count_ st) := x]> (data_ st) |})).
Proof using S_static_assert S_int.
  intros Hok. split; [apply full_spec, Hok|].
  split; [by apply push_full | by apply push_not_full].
Qed.

(** X2: Pushes below capacity all succeed and lay the items out in order from
    the slot the counter names; [size()] grows by their number; and once
    the counter has reached [S] the next [push] is refused. *)
Theorem push_all_fills (items : list T) (st : stack_t T) :
  stack_ok S st ->
  0 <= count_ st ->
  count_ st + Z.of_nat (length items) <= S ->
  let st' := {| count_ := count_ st + Z.of_nat (length items);
                data_ := take (Z.to_nat (count_ st)) (data_ st) ++ items
                         ++ drop (Z.to_nat (count_ st) + length items) (data_ st) |} in
  push_all S items st = Ok (replicate (length items) true, st') /\
  stack_ok S st' /\
  size S st' = size S st + Z.of_nat (length items) /\
  (count_ st + Z.of_nat (length items) = S ->
   forall x, push S x st' = Ok (false, st')).
Proof using S_static_assert S_int.
  intros Hok H0 Hfit. cbv zeta.
  assert (Hrun : push_all S items st
    = Ok (replicate (length items) true,
          {| count_ := count_ st + Z.of_nat (length items);
             data_ := take (Z.to_nat (count_ st)) (data_ st) ++ items
                      ++ drop (Z.to_nat (count_ st) + length items) (data_ st) |})).
  { revert st Hok H0 Hfit. induction items as [|x items IH]; intros st Hok H0 Hfit.
    - simpl. rewrite Z.add_0_r, Nat.add_0_r, take_drop, stack_eta. reflexivity.
    - destruct Hok as [Hr Hlen]. cbn [length] in Hfit.
      assert (Hnotfull : full S st = false).
      { destruct (full S st) eqn:E; [|done].
        apply full_spec in E; [lia|done]. }
      cbn [push_all].
      rewrite push_not_full by done.
      rewrite IH; cbn [count_ data_].
      + f_equal. f_equal. f_equal; [cbn [length]; lia|].
        replace (Z.to_nat (count_ st + 1)) with (Datatypes.S (Z.to_nat (count_ st))) by lia.
        rewrite (take_S_r _ _ x) by (apply list_lookup_insert_eq; lia).
        rewrite take_insert_ge by lia.
        rewrite drop_insert_lt by lia.
        rewrite <- app_assoc. cbn [length app].
        rewrite Nat.add_succ_comm. reflexivity.
      + split; cbn [count_ data_]; [unfold int_range in *; lia|].
        rewrite length_insert. exact Hlen.
      + lia.
      + lia. }
  assert (Hok' : stack_ok S
    {| count_ := count_ st + Z.of_nat (length items);
       data_ := take (Z.to_nat (count_ st)) (data_ st) ++ items
                ++ drop (Z.to_nat (count_ st) + length items) (data_ st) |}).
  { destruct Hok as [Hr Hlen]. split; cbn [count_ data_].
    - unfold int_range in *. lia.
    - rewrite !length_app, length_take, length_drop. lia. }
  split; [exact Hrun|]. split; [exact Hok'|]. split.
  - destruct Hok as [Hr Hlen].
    unfold size. cbn [count_].
    destruct (Z.ltb_spec (count_ st) 0); [lia|].
    destruct (Z.ltb_spec (count_ st + Z.of_nat (length items)) 0); [lia|].
    rewrite !size_wrap_id by (unfold size_range, int_range in *; lia).
    destruct (Z.gtb_spec (count_ st) S); [lia|].
    destruct (Z.gtb_spec (count_ st + Z.of_nat (length items)) S); lia.
  - intros Hfull x.
    apply push_full; [exact Hok'|].
    apply full_spec; [apply Hok'|]. cbn [count_]. lia.
Qed.

(** X3: With a negative counter, the one case in which [pop()] and
    [pull(item)] report an empty stack, both restore the counter: the stack
    and [item] are what they were. *)
Theorem pop_below_zero_rolls_back (st : stack_t T) (item : T) :
  int_range (count_ st) ->
  count_ st < 0 ->
  pop st = Ok (None, st) /\ pull item st = Ok (false, item, st).
Proof.
  intros Hr Hneg. unfold pop, pull. cbv zeta. cbn [count_ data_].
  destruct (Z.ltb_spec (count_ st) 0); [|lia].
  rewrite int_wrap_pred_succ by done. by rewrite stack_eta.
Qed.

(** X4: [empty()] holds exactly when [size()] is [0], [operator!] is [empty()]
    and [operator bool] its negation; with a counter that is not negative
    [full()] holds exactly when [size()] is [S]; with a negative counter
    [empty()] and [full()] both hold. *)
Theorem empty_full_size (st : stack_t T) :
  int_range (count_ st) ->
  (empty st = true <-> size S st = 0) /\
  operator_not st = empty st /\
  operator_bool st = negb (empty st) /\
  (0 <= count_ st -> (full S st = true <-> size S st = S)) /\
  (count_ st < 0 -> empty st = true /\ full S st = true).
Proof using S_static_assert S_int.
  intros Hr.
  assert (Hsize : size S st
                  = if count_ st <? 0 then 0
                    else if count_ st >? S then S else count_ st).
  { unfold size. cbv zeta. destruct (Z.ltb_spec (count_ st) 0); [done|].
    rewrite size_wrap_id by (unfold size_range, int_range in *; lia). done. }
  rewrite Hsize. unfold empty, operator_not, operator_bool.
  split; [|split; [done|split; [|split]]].
  - destruct (Z.ltb_spec (count_ st) 1), (Z.ltb_spec (count_ st) 0),
      (Z.gtb_spec (count_ st) S); split; (done || lia).
  - destruct (Z.ltb_spec (count_ st) 1), (Z.gtb_spec (count_ st) 0); (done || lia).
  - intros H0. rewrite full_spec by done.
    destruct (Z.ltb_spec (count_ st) 0), (Z.gtb_spec (count_ st) S); lia.
  - intros Hneg. split; [apply Z.ltb_lt; lia | apply full_spec; [done|lia]].
Qed.

End more.

Lemma fresh3_stack_ok : stack_ok 3 fresh3.
Proof. split; [unfold int_range; simpl; lia | reflexivity]. Qed.

Lemma three_int : 3 < 2 ^ 31.
Proof. lia. Qed.

Lemma three_static_assert : 2 < 3.
Proof. lia. Qed.

Lemma push_refused_iff_full_witness :
  full 3 fresh3 = false /\
  push 3 7 fresh3 = Ok (true, {| count_ := 1; data_ := [7; 0; 0] |}).
Proof.
  split; [reflexivity|].
  apply (push_refused_iff_full 3 three_static_assert three_int 7 fresh3
           fresh3_stack_ok).
  reflexivity.
Defined.

Lemma push_all_fills_witness :
  push_all 3 [7; 8; 9] fresh3
  = Ok ([true; true; true], {| count_ := 3; data_ := [7; 8; 9] |}) /\
  forall x, push 3 x {| count_ := 3; data_ := [7; 8; 9] |}
            = Ok (false, {| count_ := 3; data_ := [7; 8; 9] |}).
Proof.
  destruct (push_all_fills 3 three_static_assert three_int [7; 8; 9] fresh3
              fresh3_stack_ok) as (Hrun & _ & _ & Hfull);
    [simpl; lia | simpl; lia |].
  split; [exact Hrun|]. apply Hfull. reflexivity.
Defined.

Lemma pop_below_zero_rolls_back_witness :
  let st := {| count_ := -1; data_ := [0; 0; 0] |} in
  pop st = Ok (None, st) /\ pull 9 st = Ok (false, 9, st).
Proof.
  apply (@pop_below_zero_rolls_back Z); [unfold int_range; simpl; lia | simpl; lia].
Defined.

Lemma empty_full_size_witness :
  let st := {| count_ := -1; data_ := [0; 0; 0] |} in
  empty st = true /\ full 3 st = true /\ size 3 st = 0.
Proof.
  intros st.
  destruct (empty_full_size 3 three_static_assert three_int st)
    as (He & _ & _ & _ & Hboth); [unfold int_range; simpl; lia|].
  destruct Hboth as [Hempty Hfull]; [simpl; lia|].
  split; [exact Hempty|]. split; [exact Hfull|]. by apply He.
Defined.

End StackMore.

(** ** The ring buffer: [push], filling, first in first out *)

Module BufferMore.
Import MachineFacts Buffer.

Section more.
Context {T : Type}.
Variable S : Z.
Variable from_unsigned : Z -> T.
(** [static_assert(S > 2)], and the slots are indexed by an [unsigned]. *)
Hypothesis S_static_assert : 2 < S.
Hypothesis S_unsigned : S < 2 ^ 32.

Lemma advance_mod (i : Z) :
  0 <= i < S -> advance S i = (i + 1) mod S /\ 0 <= advance S i < S.
Proof using S_static_assert S_unsigned.
  intros Hi. unfold advance. cbv zeta.
  rewrite unsigned_wrap_id by (unfold unsigned_range; lia).
  rewrite (size_wrap_id (i + 1)) by (unfold size_range; lia).
  destruct (Z.geb_spec (i + 1) S) as [Hge|Hlt].
  - assert (i + 1 = S) as -> by lia.
    rewrite Z.sub_diag, Z_mod_same_full.
    change (unsigned_wrap (size_wrap 0)) with 0. split; [reflexivity|lia].
  - rewrite Z.mod_small by lia. lia.
Qed.

Lemma buffer_full_spec (b : buffer_t T) :
  0 <= tail_ b < S ->
  full S b = true <-> (tail_ b + 1) mod S = head_ b.
Proof using S_static_assert S_unsigned.
  intros Ht. unfold full. cbv zeta.
  destruct (advance_mod (tail_ b) Ht) as [-> _]. apply Z.eqb_eq.
Qed.

Lemma buffer_push_full (x : T) (b : buffer_t T) :
  full S b = true -> push S x b = Ok (false, b).
Proof. unfold full, push. cbv zeta. intros ->. reflexivity. Qed.

Lemma buffer_push_not_full (x : T) (b : buffer_t T) :
  in_bounds S b -> full S b = false ->
  push S x b
  = Ok (true, {| head_ := head_ b; tail_ := (tail_ b + 1) mod S;
                 data_ := <[Z.to_nat (tail_ b) := x]> (data_ b) |}).
Proof using S_static_assert S_unsigned.
  intros ((Hh & Ht & Hlen) & HhS & HtS) Hfull.
  unfold unsigned_range in *. unfold full, push in *. cbv zeta in *.
  rewrite Hfull. unfold array_set. rewrite decide_True by lia.
  destruct (advance_mod (tail_ b)) as [-> _]; [lia|]. reflexivity.
Qed.

(** X5: [push] is refused exactly when [full()] holds, that is when the slot
    after the tail (modulo [S]) is the head, and a refused [push] leaves
    the buffer as it was; an accepted [push] writes the tail slot, moves
    the tail to the next slot modulo [S] and leaves the head alone. *)
Theorem buffer_push_refused_iff_full (x : T) (b : buffer_t T) :
  in_bounds S b ->
  (full S b = true <-> (tail_ b + 1) mod S = head_ b) /\
  (full S b = true -> push S x b = Ok (false, b)) /\
  (full S b = false ->
   push S x b
   = Ok (true, {| head_ := head_ b; tail_ := (tail_ b + 1) mod S;
                  data_ := <[Z.to_nat (tail_ b) := x]> (data_ b) |})).
Proof using S_static_assert S_unsigned.
  intros Hb. split; [|split].
  - apply buffer_full_spec. destruct Hb as ((_ & Ht & _) & _ & HtS).
    unfold unsigned_range in Ht. lia.
  - apply buffer_push_full.
  - by apply buffer_push_not_full.
Qed.

(** X6: [push], [pull] and [pop] keep the indices inside the array and never
    touch a slot outside it. *)
Theorem operations_stay_in_bounds (x item : T) (b : buffer_t T) :
  in_bounds S b ->
  (exists r b', push S x b = Ok (r, b') /\ in_bounds S b') /\
  (exists r y b', pull S item b = Ok (r, y, b') /\ in_bounds S b') /\
  (exists r b', pop S from_unsigned b = Ok (r, b') /\ in_bounds S b').
Proof using S_static_assert S_unsigned.
  intros Hb. pose proof Hb as ((Hh & Ht & Hlen) & HhS & HtS).
  unfold unsigned_range in *. split; [|split].
  - destruct (full S b) eqn:Hfull.
    + rewrite buffer_push_full by done. eauto.
    + rewrite buffer_push_not_full by done. do 2 eexists. split; [reflexivity|].
      pose proof (Z.mod_pos_bound (tail_ b + 1) S ltac:(lia)).
      repeat split; cbn [head_ tail_ data_]; try lia.
      rewrite length_insert. exact Hlen.
  - unfold pull. cbv zeta. destruct (head_ b =? tail_ b); [eauto|].
    destruct (array_get_Some (data_ b) (head_ b)) as [y ->]; [lia|].
    do 3 eexists. split; [reflexivity|]. repeat split; cbn [head_ tail_ data_]; lia.
  - unfold pop. cbv zeta. destruct (head_ b =? tail_ b); [eauto|].
    destruct (array_get_Some (data_ b) (head_ b)) as [y ->]; [lia|].
    do 2 eexists. split; [reflexivity|]. repeat split; cbn [head_ tail_ data_]; lia.
Qed.

(** X7: With the head at slot [0], pushes that leave one slot free all succeed
    and lay the items out in order from the tail slot; and once [S - 1]
    slots are taken the next [push] is refused. *)
Theorem buffer_push_all_fills (items : list T) (b : buffer_t T) :
  in_bounds S b ->
  head_ b = 0 ->
  tail_ b + Z.of_nat (length items) <= S - 1 ->
  let b' := {| head_ := 0; tail_ := tail_ b + Z.of_nat (length items);
               data_ := take (Z.to_nat (tail_ b)) (data_ b) ++ items
                        ++ drop (Z.to_nat (tail_ b) + length items) (data_ b) |} in
  push_all S items b = Ok (replicate (length items) true, b') /\
  (tail_ b + Z.of_nat (length items) = S - 1 ->
   forall x, push S x b' = Ok (false, b')).
Proof using S_static_assert S_unsigned.
  intros Hb Hhead Hfit. cbv zeta. split.
  - revert b Hb Hhead Hfit.
    induction items as [|x items IH]; intros b Hb Hhead Hfit.
    + simpl. rewrite Z.add_0_r, Nat.add_0_r, take_drop, <- Hhead.
      by destruct b.
    + pose proof Hb as ((Hh & Ht & Hlen) & HhS & HtS).
      unfold unsigned_range in *. cbn [length] in Hfit.
      assert (Hmod : (tail_ b + 1) mod S = tail_ b + 1)
        by (apply Z.mod_small; lia).
      assert (Hnotfull : full S b = false).
      { destruct (full S b) eqn:E; [|done].
        apply buffer_full_spec in E; lia. }
      cbn [push_all]. rewrite buffer_push_not_full, Hmod, Hhead by done.
      rewrite IH; cbn [head_ tail_ data_].
      * f_equal. f_equal. f_equal; [cbn [length]; lia|].
        replace (Z.to_nat (tail_ b + 1)) with (Datatypes.S (Z.to_nat (tail_ b))) by lia.
        rewrite (take_S_r _ _ x) by (apply list_lookup_insert_eq; lia).
        rewrite take_insert_ge by lia.
        rewrite drop_insert_lt by lia.
        rewrite <- app_assoc. cbn [length app].
        rewrite Nat.add_succ_comm. reflexivity.
      * repeat split; cbn [head_ tail_ data_]; try lia.
        rewrite length_insert. exact Hlen.
      * reflexivity.
      * lia.
  - intros Hfull x. apply buffer_push_full.
    apply buffer_full_spec; cbn [head_ tail_].
    + destruct Hb as ((_ & Ht & _) & _). unfold unsigned_range in Ht. lia.
    + replace (tail_ b + Z.of_nat (length items) + 1) with S by lia.
      apply Z_mod_same_full.
Qed.

(** X8: First in, first out at the head: after an accepted [push(x)], [pull]
    hands out [x] when the buffer was empty and the element that was at
    the head before the [push] otherwise. *)
Theorem push_then_pull (x item : T) (b : buffer_t T) :
  in_bounds S b ->
  full S b = false ->
  exists b' y,
    push S x b = Ok (true, b') /\
    pull S item b' = Ok (true, y, b') /\
    (head_ b = tail_ b -> y = x) /\
    (head_ b <> tail_ b -> array_get (data_ b) (head_ b) = Some y).
Proof using S_static_assert S_unsigned.
  intros Hb Hfull. pose proof Hb as ((Hh & Ht & Hlen) & HhS & HtS).
  unfold unsigned_range in *.
  assert (Hne : head_ b <> (tail_ b + 1) mod S).
  { intros E. assert (full S b = true); [|congruence].
    apply buffer_full_spec; [lia|done]. }
  rewrite buffer_push_not_full by done.
  assert (Hset : array_set (data_ b) (tail_ b) x
                 = Some (<[Z.to_nat (tail_ b) := x]> (data_ b))).
  { unfold array_set. apply decide_True. lia. }
  destruct (array_set_get _ _ _ _ Hset) as (Hget & _ & Hother).
  destruct (decide (head_ b = tail_ b)) as [Heq|Hneq].
  - exists {| head_ := head_ b; tail_ := (tail_ b + 1) mod S;
              data_ := <[Z.to_nat (tail_ b) := x]> (data_ b) |}, x.
    split; [reflexivity|].
    split; [|split; [reflexivity | intros Hc; contradiction]].
    unfold pull. cbv zeta. cbn [head_ tail_ data_].
    rewrite (proj2 (Z.eqb_neq _ _) Hne), Heq, Hget. reflexivity.
  - destruct (array_get_Some (data_ b) (head_ b)) as [y Hy]; [lia|].
    exists {| head_ := head_ b; tail_ := (tail_ b + 1) mod S;
              data_ := <[Z.to_nat (tail_ b) := x]> (data_ b) |}, y.
    split; [reflexivity|].
    split; [|split; [intros Hc; contradiction | intros _; exact Hy]].
    unfold pull. cbv zeta. cbn [head_ tail_ data_].
    rewrite (proj2 (Z.eqb_neq _ _) Hne), Hother, Hy by exact Hneq. reflexivity.
Qed.

(** X9: [empty()] holds exactly when head and tail are equal, [operator!] is
    [empty()] and [operator bool] its negation; and exactly then [pull]
    returns false leaving [item] and the buffer as they were, and [pop]
    returns the empty optional. *)
Theorem empty_buffer_reports_empty (item : T) (b : buffer_t T) :
  (empty b = true <-> head_ b = tail_ b) /\
  operator_not b = empty b /\
  operator_bool b = negb (empty b) /\
  (empty b = true ->
   pull S item b = Ok (false, item, b) /\ pop S from_unsigned b = Ok (None, b)) /\
  (pull S item b = Ok (false, item, b) -> empty b = true) /\
  (pop S from_unsigned b = Ok (None, b) -> empty b = true).
Proof using Type.
  unfold empty, operator_not, operator_bool, pull, pop. cbv zeta.
  split; [apply Z.eqb_eq|]. split; [reflexivity|]. split; [reflexivity|].
  destruct (head_ b =? tail_ b); [by auto|].
  split; [discriminate|].
  destruct (array_get (data_ b) (head_ b)); split; discriminate.
Qed.

End more.

Lemma four_static_assert : 2 < 4.
Proof. lia. Qed.

Lemma four_unsigned : 4 < 2 ^ 32.
Proof. lia. Qed.

Lemma constructed4_in_bounds : in_bounds 4 constructed4.
Proof. repeat split; simpl; lia. Qed.

Lemma one_pushed_in_bounds : in_bounds 4 one_pushed.
Proof. repeat split; simpl; lia. Qed.

Lemma buffer_push_refused_iff_full_witness :
  let b := {| head_ := 0; tail_ := 3; data_ := [10; 20; 30; 0] |} in
  full 4 b = true /\ push 4 40 b = Ok (false, b).
Proof.
  intros b. split; [reflexivity|].
  apply (buffer_push_refused_iff_full 4 four_static_assert four_unsigned 40 b);
    [repeat split; simpl; lia | reflexivity].
Defined.

Lemma operations_stay_in_bounds_witness :
  (exists r b', push 4 20 one_pushed = Ok (r, b') /\ in_bounds 4 b') /\
  (exists r y b', pull 4 0 one_pushed = Ok (r, y, b') /\ in_bounds 4 b') /\
  (exists r b', pop 4 id one_pushed = Ok (r, b') /\ in_bounds 4 b').
Proof.
  apply (operations_stay_in_bounds 4 id four_static_assert four_unsigned).
  exact one_pushed_in_bounds.
Defined.

Lemma buffer_push_all_fills_witness :
  push_all 4 [10; 20; 30] constructed4
  = Ok ([true; true; true], {| head_ := 0; tail_ := 3; data_ := [10; 20; 30; 0] |}) /\
  forall x, push 4 x {| head_ := 0; tail_ := 3; data_ := [10; 20; 30; 0] |}
            = Ok (false, {| head_ := 0; tail_ := 3; data_ := [10; 20; 30; 0] |}).
Proof.
  destruct (buffer_push_all_fills 4 four_static_assert four_unsigned
              [10; 20; 30] constructed4 constructed4_in_bounds) as [Hrun Hfull];
    [reflexivity | simpl; lia |].
  split; [exact Hrun|]. apply Hfull. reflexivity.
Defined.

Lemma push_then_pull_witness :
  exists b' y,
    push 4 10 constructed4 = Ok (true, b') /\
    pull 4 0 b' = Ok (true, y, b') /\
    (head_ constructed4 = tail_ constructed4 -> y = 10) /\
    (head_ constructed4 <> tail_ constructed4 ->
     array_get (data_ constructed4) (head_ constructed4) = Some y).
Proof.
  apply (push_then_pull 4 four_static_assert four_unsigned 10 0 constructed4);
    [exact constructed4_in_bounds | reflexivity].
Defined.

End BufferMore.

(** ** [sequence_t]: consecutive, distinct values *)

Module SequenceProps.
Import Sequence.

Section props.
Variable bits : Z.
Hypothesis bits_pos : 0 < bits.

Lemma modulus_pos : 0 < 2 ^ bits.
Proof using bits_pos. apply Z.pow_pos_nonneg; lia. Qed.

Lemma seq_wrap_in_range z : in_range bits (wrap bits z).
Proof using bits_pos. apply Z.mod_pos_bound, modulus_pos. Qed.

Lemma wrap_add_l a b : wrap bits (wrap bits a + b) = wrap bits (a + b).
Proof. unfold wrap. apply Zplus_mod_idemp_l. Qed.

Lemma reads_cons (n : nat) (s : sequence_t) :
  reads bits (Datatypes.S n) s
  = (seq_ s :: (reads bits n {| seq_ := wrap bits (seq_ s + 1) |}).1,
     (reads bits n {| seq_ := wrap bits (seq_ s + 1) |}).2).
Proof.
  cbn [reads]. unfold deref.
  destruct (reads bits n _) as [vs s2]. reflexivity.
Qed.

Lemma reads_lookup (n : nat) (s : sequence_t) (i : nat) :
  in_range bits (seq_ s) -> (i < n)%nat ->
  (reads bits n s).1 !! i = Some (wrap bits (seq_ s + Z.of_nat i)).
Proof using bits_pos.
  revert s i. induction n as [|n IH]; intros s i Hs Hi; [lia|].
  rewrite reads_cons. cbn [fst]. destruct i as [|i]; rewrite lookup_cons.
  - f_equal. unfold wrap, in_range in *. rewrite Z.add_0_r.
    symmetry. apply Z.mod_small. exact Hs.
  - rewrite IH by (apply seq_wrap_in_range || lia). cbn [seq_].
    rewrite wrap_add_l. do 2 f_equal. lia.
Qed.

Lemma reads_final (n : nat) (s : sequence_t) :
  in_range bits (seq_ s) ->
  seq_ (reads bits n s).2 = wrap bits (seq_ s + Z.of_nat n).
Proof using bits_pos.
  revert s. induction n as [|n IH]; intros s Hs.
  - simpl. unfold wrap, in_range in *. rewrite Z.add_0_r.
    symmetry. apply Z.mod_small. exact Hs.
  - rewrite reads_cons. cbn [snd]. rewrite IH by apply seq_wrap_in_range.
    cbn [seq_]. rewrite wrap_add_l. f_equal. lia.
Qed.

Lemma reads_length (n : nat) (s : sequence_t) : length (reads bits n s).1 = n.
Proof.
  revert s. induction n as [|n IH]; intros s; [reflexivity|].
  rewrite reads_cons. cbn [fst length]. by rewrite IH.
Qed.

(** X10: [n] reads in a row return the counter, the counter plus one, and so
    on, modulo [2^bits], and leave the counter [n] further; as long as the
    counter does not pass the largest value of [T] the values are
    consecutive without wrapping. *)
Theorem reads_consecutive (n : nat) (s : sequence_t) :
  in_range bits (seq_ s) ->
  length (reads bits n s).1 = n /\
  (forall i : nat, (i < n)%nat ->
     (reads bits n s).1 !! i = Some (wrap bits (seq_ s + Z.of_nat i))) /\
  seq_ (reads bits n s).2 = wrap bits (seq_ s + Z.of_nat n) /\
  (seq_ s + Z.of_nat n <= 2 ^ bits ->
   forall i : nat, (i < n)%nat ->
     (reads bits n s).1 !! i = Some (seq_ s + Z.of_nat i)).
Proof using bits_pos.
  intros Hs. split; [apply reads_length|].
  split; [intros i Hi; by apply reads_lookup|].
  split; [by apply reads_final|].
  intros Hfit i Hi. rewrite reads_lookup by done. f_equal.
  unfold wrap, in_range in *. apply Z.mod_small. lia.
Qed.

(** X11: As long as there are no more reads than [T] has values, no two of them
    return the same value. *)
Theorem reads_distinct (n : nat) (s : sequence_t) :
  in_range bits (seq_ s) ->
  Z.of_nat n <= 2 ^ bits ->
  NoDup (reads bits n s).1.
Proof using bits_pos.
  intros Hs Hn. apply NoDup_alt. intros i j x Hi Hj.
  assert (Hin : (i < n)%nat).
  { rewrite <- (reads_length n s). eapply lookup_lt_Some, Hi. }
  assert (Hjn : (j < n)%nat).
  { rewrite <- (reads_length n s). eapply lookup_lt_Some, Hj. }
  rewrite reads_lookup in Hi, Hj by done.
  assert (Heq : wrap bits (seq_ s + Z.of_nat i) = wrap bits (seq_ s + Z.of_nat j))
    by congruence.
  unfold wrap in Heq. apply Z.cong_iff_ex in Heq as [q Hq].
  assert (q = 0) by nia. nia.
Qed.

End props.

Lemma unsigned_bits_pos : 0 < 32.
Proof. lia. Qed.

Lemma reads_consecutive_witness :
  let s := {| seq_ := 2 ^ 32 - 2 |} in
  (reads 32 4 s).1 = [2 ^ 32 - 2; 2 ^ 32 - 1; 0; 1] /\
  seq_ (reads 32 4 s).2 = wrap 32 (seq_ s + 4).
Proof.
  intros s. split; [reflexivity|].
  apply (reads_consecutive 32 unsigned_bits_pos 4 s).
  unfold in_range. simpl. lia.
Defined.

Lemma reads_distinct_witness : NoDup (reads 32 4 {| seq_ := 2 ^ 32 - 2 |}).1.
Proof.
  apply (reads_distinct 32 unsigned_bits_pos); [unfold in_range; simpl; lia | simpl; lia].
Defined.

End SequenceProps.

(** ** [once_t]: only the first test sees the gate armed *)

Module OnceProps.
Import Once.

Lemma checks_disarmed (ts : list test) :
  checks ts {| flag_ := false |}
  = ((fun t => match t with AsBool => false | Not => true end) <$> ts,
     {| flag_ := false |}).
Proof.
  induction ts as [|t ts IH]; [reflexivity|].
  cbn [checks]. destruct t; cbn; rewrite IH; reflexivity.
Qed.

(** X12: After [reset()], and likewise after construction, the first test of
    the gate sees it armed ([operator bool] gives true, [operator!] gives
    false), every later test sees it disarmed, and the gate is left
    disarmed. *)
Theorem first_check_wins (t : test) (ts : list test) (g : once_t) :
  checks (t :: ts) (reset g)
  = ((match t with AsBool => true | Not => false end)
       :: ((fun t => match t with AsBool => false | Not => true end) <$> ts),
     {| flag_ := false |}) /\
  checks (t :: ts) once_new = checks (t :: ts) (reset g).
Proof.
  split; [|reflexivity].
  cbn [checks]. destruct t; cbn; rewrite checks_disarmed; reflexivity.
Qed.

End OnceProps.

(** ** [atomic_ref]: wrapping arithmetic and the retry of a failed exchange *)

Module AtomicRefProps.
Import AtomicRef.

Section props.
Variable bits : Z.
Variable signed : bool.
Hypothesis bits_pos : 0 < bits.

Lemma modulus_double : 2 ^ bits = 2 * 2 ^ (bits - 1).
Proof using bits_pos.
  replace bits with (Z.succ (bits - 1)) at 1 by lia.
  apply Z.pow_succ_r. lia.
Qed.

Lemma half_pos : 0 < 2 ^ (bits - 1).
Proof using bits_pos. apply Z.pow_pos_nonneg; lia. Qed.

Lemma wrap_mod z : wrap bits signed z mod 2 ^ bits = z mod 2 ^ bits.
Proof.
  unfold wrap. destruct signed; [|apply Zmod_mod].
  rewrite Zminus_mod_idemp_l. f_equal. lia.
Qed.

Lemma wrap_congr a b :
  a mod 2 ^ bits = b mod 2 ^ bits -> wrap bits signed a = wrap bits signed b.
Proof.
  intros Hab. unfold wrap. destruct signed; [|exact Hab].
  rewrite <- (Zplus_mod_idemp_l a), <- (Zplus_mod_idemp_l b), Hab. reflexivity.
Qed.

Lemma wrap_id z : in_range bits signed z -> wrap bits signed z = z.
Proof using bits_pos.
  unfold wrap, in_range. pose proof modulus_double. pose proof half_pos.
  destruct signed; intros Hz.
  - rewrite Z.mod_small by lia. lia.
  - apply Z.mod_small. exact Hz.
Qed.

Lemma ref_wrap_in_range z : in_range bits signed (wrap bits signed z).
Proof using bits_pos.
  unfold wrap, in_range. pose proof modulus_double. pose proof half_pos.
  destruct signed.
  - pose proof (Z.mod_pos_bound (z + 2 ^ (bits - 1)) (2 ^ bits)). lia.
  - apply Z.mod_pos_bound. lia.
Qed.

(** X13: [fetch_add(arg)] followed by [fetch_sub(arg)], and the other way
    round, gives back the value the location held, whatever wrapped in
    between; each call returns the value it found, and what it stores is a
    value of [T]. *)
Theorem fetch_add_sub_round_trip (arg ref : Z) :
  in_range bits signed ref ->
  fetch_sub bits signed arg (fetch_add bits signed arg ref).2
  = (wrap bits signed (ref + arg), ref) /\
  fetch_add bits signed arg (fetch_sub bits signed arg ref).2
  = (wrap bits signed (ref - arg), ref) /\
  post_decrement bits signed (post_increment bits signed ref).2
  = (wrap bits signed (ref + 1), ref) /\
  sub_assign bits signed arg (add_assign bits signed arg ref) = ref /\
  in_range bits signed (fetch_add bits signed arg ref).2 /\
  in_range bits signed (fetch_sub bits signed arg ref).2.
Proof using bits_pos.
  intros Hr.
  assert (Hadd : wrap bits signed (wrap bits signed (ref + arg) - arg) = ref).
  { rewrite <- (wrap_id ref Hr) at 2. apply wrap_congr.
    rewrite <- Zminus_mod_idemp_l, wrap_mod, Zminus_mod_idemp_l. f_equal. lia. }
  assert (Hsub : wrap bits signed (wrap bits signed (ref - arg) + arg) = ref).
  { rewrite <- (wrap_id ref Hr) at 2. apply wrap_congr.
    rewrite <- Zplus_mod_idemp_l, wrap_mod, Zplus_mod_idemp_l. f_equal. lia. }
  assert (Hone : wrap bits signed (wrap bits signed (ref + 1) - 1) = ref).
  { rewrite <- (wrap_id ref Hr) at 2. apply wrap_congr.
    rewrite <- Zminus_mod_idemp_l, wrap_mod, Zminus_mod_idemp_l. f_equal. lia. }
  unfold post_decrement, post_increment, sub_assign, add_assign,
    fetch_add, fetch_sub. cbn [fst snd].
  rewrite Hadd, Hsub, Hone. repeat split; apply ref_wrap_in_range.
Qed.

(** X14: [compare_exchange_strong] succeeds exactly when the location holds
    [expected], and then stores [value]; when it fails it leaves the
    location alone and loads its value into [expected], so that the retry
    with that [expected] succeeds. *)
Theorem compare_exchange_retry (expected value ref : Z) :
  let r := compare_exchange_strong expected value ref in
  (r.1.1 = true <-> ref = expected) /\
  (r.1.1 = true -> r = (true, expected, value)) /\
  (r.1.1 = false ->
   r = (false, ref, ref) /\
   compare_exchange_strong r.1.2 value r.2 = (true, ref, value)).
Proof.
  cbv zeta. unfold compare_exchange_strong.
  destruct (Z.eqb_spec ref expected) as [->|Hne]; cbn [fst snd].
  - repeat split; (done || auto).
  - rewrite Z.eqb_refl. repeat split; (done || auto).
Qed.

End props.

Lemma int_bits_pos : 0 < 32.
Proof. lia. Qed.

Lemma fetch_add_sub_round_trip_witness :
  fetch_add 32 true 1 (2 ^ 31 - 1) = (2 ^ 31 - 1, - 2 ^ 31) /\
  fetch_sub 32 true 1 (fetch_add 32 true 1 (2 ^ 31 - 1)).2
  = (wrap 32 true (2 ^ 31 - 1 + 1), 2 ^ 31 - 1).
Proof.
  split; [reflexivity|].
  apply (fetch_add_sub_round_trip 32 true int_bits_pos 1 (2 ^ 31 - 1)).
  unfold in_range. simpl. lia.
Defined.

End AtomicRefProps.

(** ** The dictionary: lookups, [keys], [clear], [each] *)

Module DictionaryMore.
Import MachineFacts Dictionary DictionaryProps.

Section lists.
Context {A : Type}.

Lemma elem_of_concat_lookup (x : A) (l : list (list A)) :
  x ∈ concat l <-> exists (i : nat) (c : list A), l !! i = Some c /\ x ∈ c.
Proof.
  induction l as [|c l IH]; simpl.
  - split; [intros H; by apply elem_of_nil in H | intros (i & c & H & _); done].
  - rewrite elem_of_app, IH. split.
    + intros [Hx|(i & c' & Hi & Hx)]; [by exists 0%nat, c|].
      by exists (Datatypes.S i), c'.
    + intros ([|i] & c' & Hi & Hx); simplify_eq/=; [by left|].
      right. by exists i, c'.
Qed.

Lemma length_concat_sum (l : list (list A)) :
  length (concat l) = sum_list_with length l.
Proof.
  induction l as [|c l IH]; [reflexivity|].
  simpl. rewrite length_app, IH. reflexivity.
Qed.

End lists.

Section more.
Context {K V : Type} `{EqDecision K}.
Variable hash : K -> Z.
Variable S : Z.
Hypothesis S_pos : 0 < S.
Variable moved_from : K -> K.
Implicit Types (k : K) (v : V) (n : node K V) (d : dictionary_t K V).
Implicit Types c : list (node K V).

Local Abbreviation key_index := (key_index hash S).
Local Abbreviation wf := (wf hash S).
Local Abbreviation run := (run hash S moved_from).

Lemma chain_contains_elem k c :
  chain_contains k c = true <-> exists n, n ∈ c /\ key n = k.
Proof.
  induction c as [|m c IH]; simpl.
  - split; [discriminate | intros (n & Hn & _); by apply elem_of_nil in Hn].
  - destruct (decide (key m = k)) as [Hk|Hk].
    + split; [intros _; exists m; split; [left|done] | done].
    + rewrite IH. split.
      * intros (n & Hn & Hkn). exists n. split; [by right|done].
      * intros (n & [->|Hn]%elem_of_cons & Hkn); [done|]. by exists n.
Qed.

Lemma contains_by_find k d :
  contains hash S k d
  = match find hash S k d with Some _ => true | None => false end.
Proof.
  unfold contains, find. induction (bucket d (key_index k)) as [|m c IH]; simpl;
    [reflexivity|]. destruct (decide (key m = k)); [reflexivity | exact IH].
Qed.

(** X15: [contains], [find] and [at] agree: [contains(k)] holds exactly when
    [find(k)] returns a value, [at(k)] returns that same value, and [at(k)]
    throws [std::out_of_range] exactly when [contains(k)] is false. *)
Theorem lookups_agree k d :
  (contains hash S k d = true <-> exists v, find hash S k d = Some v) /\
  (forall v, find hash S k d = Some v <-> at_ hash S k d = inl v) /\
  (contains hash S k d = false <-> find hash S k d = None) /\
  (contains hash S k d = false <-> at_ hash S k d = inr out_of_range).
Proof using Type.
  rewrite contains_by_find, at_find.
  destruct (find hash S k d) as [v|].
  - split; [split; eauto|]. split; [intros v'; split; congruence|].
    split; split; discriminate.
  - split; [split; [discriminate | intros [v ?]; discriminate]|].
    split; [intros v; split; discriminate|]. split; split; reflexivity.
Qed.

(** X16: [clear()] leaves a well-formed table of [S] empty buckets: [size()] is
    [0], [empty()] holds, [keys()] is empty and no key is found. *)
Theorem clear_empties d :
  wf d ->
  wf (clear d) /\
  size (clear d) = 0 /\
  empty (clear d) = true /\
  node_count (clear d) = 0 /\
  keys (clear d) = [] /\
  (forall k, find hash S k (clear d) = None /\
             contains hash S k (clear d) = false /\
             at_ hash S k (clear d) = inr out_of_range).
Proof using S_pos.
  intros Hwf. split; [by apply clear_wf|]. split; [reflexivity|].
  split; [reflexivity|]. split; [apply clear_node_count|].
  assert (Hb : forall i, bucket (clear d) i = []).
  { intros i. unfold bucket, clear. simpl. rewrite list_lookup_fmap.
    by destruct (table_ d !! Z.to_nat i). }
  split.
  - unfold keys, clear. simpl.
    assert (Hc : concat ((fun _ => @nil (node K V)) <$> table_ d) = []).
    { induction (table_ d) as [|c l IH]; [reflexivity | exact IH]. }
    by rewrite Hc.
  - intros k. unfold find, contains, at_. rewrite Hb. done.
Qed.

(** X17: In a well-formed table [keys()] lists exactly the keys that
    [contains] finds, once for each node. *)
Theorem keys_contains k d :
  wf d ->
  (k ∈ keys d <-> contains hash S k d = true) /\
  Z.of_nat (length (keys d)) = node_count d /\
  length (filter (fun k' => k' = k) (keys d)) = occurrences k d.
Proof using S_pos.
  intros Hwf. split; [|split].
  - unfold keys, contains. rewrite chain_contains_elem, list_elem_of_fmap.
    split.
    + intros (n & -> & Hn). exists n. split; [|done].
      apply elem_of_concat_lookup in Hn as (i & c & Hi & Hn).
      destruct Hwf as [Hlen Hhome].
      pose proof (Hhome i c n Hi Hn) as Hidx.
      unfold bucket. rewrite Hidx, Nat2Z.id, Hi. exact Hn.
    + intros (n & Hn & <-). exists n. split; [done|].
      apply elem_of_concat_lookup.
      exists (Z.to_nat (key_index (key n))), (bucket d (key_index (key n))).
      split; [|done].
      apply (wf_lookup hash S); [done | apply (key_index_range hash S S_pos)].
  - unfold keys, node_count. by rewrite length_fmap, length_concat_sum.
  - unfold keys, occurrences, chain_count.
    induction (table_ d) as [|c l IH]; [reflexivity|].
    simpl. rewrite fmap_app, filter_app, length_app, IH. f_equal.
    clear IH. induction c as [|n c IHc]; [reflexivity|].
    rewrite fmap_cons, !filter_cons.
    destruct (decide (key n = k)); simpl; by rewrite IHc.
Qed.

(** X18: After any sequence of [insert], [insert_or_assign], [emplace],
    [try_emplace], [remove] and [clear] calls on a constructed dictionary
    the table has its [S] buckets, every node sits in the bucket its key
    hashes to, and [count_] is the number of nodes modulo [2^64]. *)
Theorem operations_keep_table_well_formed (ops : list (operation K V)) :
  wf (run ops (dictionary_new S)) /\
  count_ok (run ops (dictionary_new S)) /\
  size_range (size (run ops (dictionary_new S))).
Proof using S_pos.
  destruct (run_inv hash S S_pos moved_from ops _ (new_inv hash S S_pos))
    as [Hwf Hc].
  split; [exact Hwf|]. split; [exact Hc|].
  unfold size. rewrite Hc. apply size_wrap_range.
Qed.

(** X19: On a dictionary reached by such a sequence, whose nodes fit
    [std::size_t], [size()] is the length of [keys()], [empty()] holds
    exactly when [keys()] is empty, [operator!] is [empty()] and
    [operator bool] its negation. *)
Theorem size_is_length_of_keys (ops : list (operation K V)) :
  node_count (run ops (dictionary_new S)) < 2 ^ 64 ->
  size (run ops (dictionary_new S))
  = Z.of_nat (length (keys (run ops (dictionary_new S)))) /\
  (empty (run ops (dictionary_new S)) = true
   <-> keys (run ops (dictionary_new S)) = []) /\
  operator_not (run ops (dictionary_new S)) = empty (run ops (dictionary_new S)) /\
  operator_bool (run ops (dictionary_new S))
  = negb (empty (run ops (dictionary_new S))).
Proof using S_pos.
  intros Hfit.
  destruct (run_inv hash S S_pos moved_from ops _ (new_inv hash S S_pos))
    as [Hwf Hc].
  set (d := run ops (dictionary_new S)) in *.
  assert (Hlen : Z.of_nat (length (keys d)) = node_count d).
  { unfold keys, node_count. by rewrite length_fmap, length_concat_sum. }
  assert (Hsize : count_ d = Z.of_nat (length (keys d))).
  { rewrite Hc, Hlen. apply size_wrap_id. split; [apply node_count_nonneg|done]. }
  unfold size, empty, operator_not, operator_bool. rewrite Hsize.
  split; [reflexivity|]. split; [|split; [reflexivity|]].
  - rewrite Z.eqb_eq. destruct (keys d); simpl; split; (done || lia).
  - destruct (keys d); simpl; [reflexivity|].
    destruct (Z.gtb_spec (Z.pos (Pos.of_succ_nat (length l))) 0); [reflexivity|lia].
Qed.

(** X20: [insert(k, v)] returns true and keeps the table well formed;
    afterwards [find(k)] is [v] and [contains(k)] holds, the lookups of
    every other key are what they were, and one more node holds [k];
    [emplace] does the same. *)
Theorem insert_then_lookup k v d :
  wf d ->
  (insert hash S k v d).1 = true /\
  wf (insert hash S k v d).2 /\
  (forall k2, find hash S k2 (insert hash S k v d).2
              = if decide (k = k2) then Some v else find hash S k2 d) /\
  contains hash S k (insert hash S k v d).2 = true /\
  (forall k2, k2 <> k ->
     contains hash S k2 (insert hash S k v d).2 = contains hash S k2 d) /\
  (forall k2, occurrences k2 (insert hash S k v d).2
              = ((if decide (k = k2) then 1 else 0) + occurrences k2 d)%nat) /\
  emplace hash S k v d = insert hash S k v d.
Proof using S_pos.
  intros Hwf. split; [reflexivity|].
  split; [by apply (insert_wf hash S S_pos)|].
  split; [intros k2; by apply (insert_find hash S S_pos)|].
  split; [|split; [|split; [|reflexivity]]].
  - rewrite contains_by_find, (insert_find hash S S_pos) by done.
    by rewrite decide_True.
  - intros k2 Hk2.
    rewrite !contains_by_find, (insert_find hash S S_pos) by done.
    by rewrite decide_False.
  - intros k2. by apply (insert_occurrences hash S S_pos).
Qed.

(** X21: [insert_or_assign(k, v)] returns true and keeps the table well formed.
    On a key that is present it changes neither the number of nodes, nor
    [size()], nor how often any key occurs; on an absent key it is
    [insert(k, v)].  The lookups of every other key are what they were. *)
Theorem insert_or_assign_effect k v d :
  wf d ->
  (insert_or_assign hash S k v d).1 = true /\
  wf (insert_or_assign hash S k v d).2 /\
  (contains hash S k d = true ->
   node_count (insert_or_assign hash S k v d).2 = node_count d /\
   size (insert_or_assign hash S k v d).2 = size d /\
   forall k2, occurrences k2 (insert_or_assign hash S k v d).2 = occurrences k2 d) /\
  (contains hash S k d = false ->
   insert_or_assign hash S k v d = insert hash S k v d) /\
  (forall k2, k2 <> k ->
     find hash S k2 (insert_or_assign hash S k v d).2 = find hash S k2 d).
Proof using S_pos.
  intros Hwf. split; [|split; [|split; [|split]]].
  - unfold insert_or_assign. by destruct (chain_assign _ _ _).
  - by apply (insert_or_assign_wf hash S S_pos).
  - intros Hin.
    destruct (insert_or_assign_node_count hash S S_pos k v d Hwf) as [Hn Hc].
    rewrite Hin in Hn, Hc. split; [lia|]. split; [exact Hc|].
    intros k2. rewrite (insert_or_assign_occurrences hash S S_pos) by done.
    destruct (decide (k = k2)) as [<-|]; [|reflexivity].
    assert (occurrences k d <> 0%nat); [|lia].
    rewrite <- (contains_occurrences hash S S_pos) by done. congruence.
  - unfold contains, insert_or_assign. intros Hout.
    apply chain_assign_None with (v := v) in Hout. rewrite Hout. reflexivity.
  - intros k2 Hk2. rewrite (insert_or_assign_find hash S S_pos) by done.
    by rewrite decide_False.
Qed.

(** X22: With a key whose move leaves it equal to what it was (as for [int]),
    [try_emplace(k, v)] refuses a key that is present and leaves the
    dictionary as it was, and inserts a key that is absent: [find(k)] is
    then [v] and exactly one node holds [k]. *)
Theorem try_emplace_when_move_copies k v d :
  wf d ->
  moved_from k = k ->
  (contains hash S k d = true ->
   try_emplace hash S moved_from k v d = (false, d)) /\
  (contains hash S k d = false ->
   try_emplace hash S moved_from k v d = (true, (insert hash S k v d).2) /\
   find hash S k (try_emplace hash S moved_from k v d).2 = Some v /\
   occurrences k (try_emplace hash S moved_from k v d).2 = 1%nat /\
   node_count (try_emplace hash S moved_from k v d).2 = node_count d + 1).
Proof using S_pos.
  intros Hwf Hk. rewrite try_emplace_unfold, Hk. unfold contains.
  split; intros Hc; rewrite Hc; [reflexivity|]. cbn [snd].
  split; [reflexivity|].
  rewrite (insert_find hash S S_pos), (insert_occurrences hash S S_pos),
    (insert_node_count hash S S_pos), !decide_True by done.
  split; [reflexivity|]. split; [|reflexivity].
  assert (occurrences k d = 0%nat); [|lia].
  by apply (contains_occurrences hash S S_pos).
Qed.

End more.

(** *** [each] *)

Section each.
Context {K V A : Type} `{EqDecision K}.
Variable hash : K -> Z.
Variable S : Z.
Variable func : K -> V -> A -> A * V.
Implicit Types (n : node K V) (d : dictionary_t K V) (a : A).
Implicit Types c : list (node K V).
Implicit Types l : list (list (node K V)).

Lemma each_chain_keys c a : key <$> (each_chain func c a).2 = key <$> c.
Proof.
  revert a. induction c as [|n c IH]; intros a; [reflexivity|].
  cbn [each_chain]. destruct (func (key n) (value n) a) as [a1 v1].
  specialize (IH a1). destruct (each_chain func c a1) as [a2 c'].
  cbn [snd fmap list_fmap] in *. simpl. by rewrite IH.
Qed.

Lemma each_table_keys l a :
  Forall2 (fun c' c => key <$> c' = key <$> c) (each_table func l a).2 l.
Proof.
  revert a. induction l as [|c l IH]; intros a; [constructor|].
  cbn [each_table]. pose proof (each_chain_keys c a) as Hc.
  destruct (each_chain func c a) as [a1 c'].
  specialize (IH a1). destruct (each_table func l a1) as [a2 l'].
  constructor; [exact Hc | exact IH].
Qed.

Lemma chain_contains_keys (k : K) c c' :
  key <$> c' = key <$> c -> chain_contains k c' = chain_contains k c.
Proof.
  revert c'. induction c as [|n c IH]; intros [|n' c'] Hk;
    try discriminate; [reflexivity|].
  rewrite !fmap_cons in Hk. injection Hk as Hn Hrest.
  simpl. rewrite Hn. destruct (decide (key n = k)); [reflexivity|]. by apply IH.
Qed.

Lemma each_chain_read_only c a :
  (forall k v a, (func k v a).2 = v) ->
  each_chain func c a
  = (fold_left (fun a n => (func (key n) (value n) a).1) c a, c).
Proof.
  intros Hro. revert a. induction c as [|n c IH]; intros a; [reflexivity|].
  cbn [each_chain fold_left]. pose proof (Hro (key n) (value n) a) as Hv.
  destruct (func (key n) (value n) a) as [a1 v1]. cbn [fst snd] in *.
  rewrite IH. subst v1. by destruct n.
Qed.

Lemma each_table_read_only l a :
  (forall k v a, (func k v a).2 = v) ->
  each_table func l a
  = (fold_left (fun a n => (func (key n) (value n) a).1) (concat l) a, l).
Proof.
  intros Hro. revert a. induction l as [|c l IH]; intros a; [reflexivity|].
  cbn [each_table concat]. rewrite each_chain_read_only, IH by done.
  by rewrite fold_left_app.
Qed.

(** X23: [each(func)] keeps the keys: [keys()], [size()], the number of nodes,
    the well-formedness of the table and what [contains] answers are what
    they were, whatever the callback writes into the values. *)
Theorem each_keeps_keys d a :
  keys (each func d a).2 = keys d /\
  size (each func d a).2 = size d /\
  node_count (each func d a).2 = node_count d /\
  (wf hash S d -> wf hash S (each func d a).2) /\
  (forall k, contains hash S k (each func d a).2 = contains hash S k d).
Proof.
  unfold each. pose proof (each_table_keys (table_ d) a) as Hall.
  destruct (each_table func (table_ d) a) as [a' table']. cbn [snd] in *.
  split; [|split; [reflexivity|split; [|split]]].
  - unfold keys. cbn [table_].
    induction Hall as [|c' c l' l Hc _ IH]; [reflexivity|].
    simpl. by rewrite !fmap_app, Hc, IH.
  - unfold node_count. cbn [table_]. f_equal.
    induction Hall as [|c' c l' l Hc _ IH]; [reflexivity|].
    simpl. rewrite IH. f_equal.
    by rewrite <- (length_fmap key c'), Hc, length_fmap.
  - intros [Hlen Hhome]. split; cbn [table_].
    + by rewrite (Forall2_length _ _ _ Hall).
    + intros i c' n' Hi Hn'.
      destruct (Forall2_lookup_l _ _ _ _ _ Hall Hi) as (c & Hc & Hkeys).
      assert (Hk : key n' ∈ key <$> c).
      { rewrite <- Hkeys. apply list_elem_of_fmap. eauto. }
      apply list_elem_of_fmap in Hk as (n & -> & Hn). by eapply Hhome.
  - intros k. unfold contains, bucket. cbn [table_].
    pose proof (proj1 (Forall2_lookup _ _ _) Hall (Z.to_nat (key_index hash S k)))
      as Hi.
    destruct Hi as [c' c Hc|]; simpl; [by apply chain_contains_keys | reflexivity].
Qed.

(** X24: With a callback that leaves the values alone, [each(func)] leaves the
    dictionary as it was and runs the callback once on every pair, bucket
    by bucket and each chain from its head, which is the order of
    [keys()]. *)
Theorem each_visits_every_pair d a :
  (forall k v a, (func k v a).2 = v) ->
  each func d a
  = (fold_left (fun a kv => (func kv.1 kv.2 a).1) (pairs d) a, d) /\
  (pairs d).*1 = keys d.
Proof.
  intros Hro. split.
  - unfold each, pairs. rewrite each_table_read_only by done.
    destruct d as [table count]. cbn [table_ count_]. f_equal.
    generalize (concat table) a. clear.
    intros c. induction c as [|n c IH]; intros a; [reflexivity|].
    simpl. apply IH.
  - unfold pairs, keys. rewrite <- list_fmap_compose. reflexivity.
Qed.

End each.

(** *** The properties at concrete dictionaries *)

Lemma clear_empties_witness :
  size (clear twice_inserted) = 0 /\
  keys (clear twice_inserted) = [] /\
  find int_hash 16 1 (clear twice_inserted) = None.
Proof.
  destruct (clear_empties int_hash 16 sixteen_pos twice_inserted twice_inserted_wf)
    as (_ & Hsize & _ & _ & Hkeys & Hfind).
  split; [exact Hsize|]. split; [exact Hkeys|]. apply Hfind.
Defined.

Lemma keys_contains_witness :
  keys twice_inserted = [1; 1] /\
  (1 ∈ keys twice_inserted <-> contains int_hash 16 1 twice_inserted = true) /\
  Z.of_nat (length (keys twice_inserted)) = node_count twice_inserted.
Proof.
  destruct (keys_contains int_hash 16 sixteen_pos 1 twice_inserted twice_inserted_wf)
    as (Hin & Hlen & _).
  split; [reflexivity|]. split; [exact Hin | exact Hlen].
Defined.

Lemma operations_keep_table_well_formed_witness :
  wf int_hash 16 twice_inserted /\ count_ok twice_inserted.
Proof.
  destruct (operations_keep_table_well_formed int_hash 16 sixteen_pos
              int_moved_from [Insert 1 10; Insert 1 20]) as (Hwf & Hc & _).
  split; [exact Hwf | exact Hc].
Defined.

Lemma size_is_length_of_keys_witness :
  node_count twice_inserted < 2 ^ 64 /\
  size twice_inserted = Z.of_nat (length (keys twice_inserted)) /\
  (empty twice_inserted = true <-> keys twice_inserted = []).
Proof.
  assert (Hfit : node_count twice_inserted < 2 ^ 64) by (vm_compute; reflexivity).
  split; [exact Hfit|].
  destruct (size_is_length_of_keys int_hash 16 sixteen_pos int_moved_from
              [Insert 1 10; Insert 1 20] Hfit) as (Hsize & Hempty & _).
  split; [exact Hsize | exact Hempty].
Defined.

Lemma insert_then_lookup_witness :
  find int_hash 16 17 (insert int_hash 16 17 5 twice_inserted).2 = Some 5 /\
  find int_hash 16 1 (insert int_hash 16 17 5 twice_inserted).2
  = find int_hash 16 1 twice_inserted.
Proof.
  destruct (insert_then_lookup int_hash 16 sixteen_pos 17 5 twice_inserted
              twice_inserted_wf) as (_ & _ & Hfind & _).
  split; [apply (Hfind 17) | apply (Hfind 1)].
Defined.

Lemma insert_or_assign_effect_witness :
  contains int_hash 16 1 twice_inserted = true /\
  node_count (insert_or_assign int_hash 16 1 30 twice_inserted).2
  = node_count twice_inserted /\
  size (insert_or_assign int_hash 16 1 30 twice_inserted).2 = size twice_inserted.
Proof.
  destruct (insert_or_assign_effect int_hash 16 sixteen_pos 1 30 twice_inserted
              twice_inserted_wf) as (_ & _ & Hin & _).
  split; [reflexivity|].
  destruct Hin as (Hn & Hs & _); [reflexivity|]. split; [exact Hn | exact Hs].
Defined.

Lemma try_emplace_when_move_copies_witness :
  int_moved_from 1 = 1 /\
  try_emplace int_hash 16 int_moved_from 1 30 twice_inserted = (false, twice_inserted) /\
  find int_hash 16 2
    (try_emplace int_hash 16 int_moved_from 2 30 twice_inserted).2 = Some 30.
Proof.
  split; [reflexivity|]. split.
  - apply (try_emplace_when_move_copies int_hash 16 sixteen_pos int_moved_from
             1 30 twice_inserted twice_inserted_wf); reflexivity.
  - apply (try_emplace_when_move_copies int_hash 16 sixteen_pos int_moved_from
             2 30 twice_inserted twice_inserted_wf); reflexivity.
Defined.

Lemma each_visits_every_pair_witness :
  each (fun k v (a : list (Z * Z)) => (a ++ [(k, v)], v)) twice_inserted []
  = ([(1, 20); (1, 10)], twice_inserted).
Proof.
  apply (each_visits_every_pair
           (fun k v (a : list (Z * Z)) => (a ++ [(k, v)], v)) twice_inserted []).
  reflexivity.
Defined.

(** [each] with a callback that doubles every value. *)
Example each_doubles :
  (each (fun (k v : Z) (a : unit) => (a, 2 * v)) twice_inserted tt).2
  = {| table_ := <[1%nat := [{| key := 1; value := 40 |};
                            {| key := 1; value := 20 |}]]> (replicate 16 []);
       count_ := 2 |}.
Proof. reflexivity. Qed.

End DictionaryMore.
